(** * SuikaPool: the simulation core of [script.ts]

    A shallow embedding of the game logic of [src/ts/script.ts]: the fruit
    catalog, the launch handler, the spawn placement search, the physics
    step [update], the fill gauge and the game loop.  The compiled
    JavaScript and the TypeScript copy without comments carry the same
    logic.  (The sources also hold an earlier script, with no queue and no
    fill gauge, whose merge gives the new fruit a fixed velocity; it is not
    the object of this development.)

    Numbers.  JavaScript numbers are read as real numbers ([R]): every
    arithmetic expression of the source is written with the same operators
    in the same order, [Math.sqrt], [Math.cos], [Math.sin], [Math.min] and
    [Math.PI] are [sqrt], [cos], [sin], [Rmin] and [PI], and the comparisons
    of the source are the decidable comparisons of [R].  Rounding, [NaN] and
    the infinities of IEEE doubles are outside this model.  Indices into
    arrays ([typeIndex], loop counters) are [nat]; scores are [Z].

    Host.  The browser is modelled by what the script asks of it: a canvas
    with a width and a height, the one-shot timers armed by [setTimeout],
    the callbacks queued by [requestAnimationFrame], the draws of
    [Math.random] (an input in [0, 1)), and the mouse position. *)

From Stdlib Require Import Reals Lra Lia ZArith String.
From stdpp Require Import base list.

#[local] Open Scope R_scope.

(** ** Data model *)

(** [interface FruitType] *)
Record FruitType := mkFruitType {
  rank : nat;
  radius : R;
  color : string;
  name : string;
  score : Z
}.

(** [interface QueuedFruit extends FruitType]: the fields of a fruit type
    together with its index in the catalog. *)
Record QueuedFruit := mkQueuedFruit {
  fruitType :> FruitType;
  typeIndex : nat
}.

(** [interface GameFruit extends FruitType]: a fruit type, its catalog index
    and the physics fields.  The fields shared with [QueuedFruit] are kept
    as one component, so that the object spread [{...newFruitType, x, y,
    ...}] of the source is one constructor application. *)
Record GameFruit := mkGameFruit {
  queued :> QueuedFruit;
  x : R;
  y : R;
  vx : R;
  vy : R;
  angle : R
}.

(** [interface Position] (the record fields are prefixed: [x] and [y]
    are taken by [GameFruit]). *)
Record Position := mkPosition {
  pos_x : R;
  pos_y : R
}.

(** The attributes of the canvas element the script reads. *)
Record Canvas := mkCanvas {
  width : R;
  height : R
}.

(** [const fruitTypes] *)
Definition fruitTypes : list FruitType :=
  [ mkFruitType 0 15 "#8A2BE2" "Cherry" 1;
    mkFruitType 1 20 "#B11D97" "Strawberry" 2;
    mkFruitType 2 28 "#D80E4B" "Grape" 3;
    mkFruitType 3 35 "#FF0000" "Dekopon" 4;
    mkFruitType 4 45 "#FF5500" "Persimmon" 5;
    mkFruitType 5 55 "#FFAA00" "Apple" 6;
    mkFruitType 6 65 "#FFFF00" "Pear" 7;
    mkFruitType 7 75 "#C8E208" "Peach" 8;
    mkFruitType 8 85 "#90C511" "Pineapple" 9;
    mkFruitType 9 100 "#59A819" "Melon" 10;
    mkFruitType 10 120 "#228B22" "Watermelon" 11 ].

(** [fruitTypes[i]].  Both reads of the source are in range: the index is
    [Math.floor(Math.random() * 5)] or one more than an index guarded by
    [< fruitTypes.length - 1].  Out of range the source reads [undefined];
    the model returns a fruit type of radius zero there, which no state of
    the game contains. *)
Definition noFruitType : FruitType := mkFruitType 0 0 "" "" 0.

Definition fruitTypes_at (i : nat) : FruitType :=
  nth i fruitTypes noFruitType.

(** The globals of the script, and the host's queues.

    - [timers]: one-shot [setTimeout] callbacks (each runs
      [prepareNextFruit]) armed and not yet fired;
    - [frames]: [gameLoop] callbacks queued by [requestAnimationFrame] (or
      by the direct call in [init]) and not yet run;
    - [updates]: how many times [update] has run (a counter of the model);
    - [gameOvers]: how many times the game-over branch of [drawFillGauge]
      has run (a counter of the model: the branch writes the final score
      and shows the game-over screen). *)
Module G.
Record t := mk {
  score : Z;
  gameOver : bool;
  fruits : list GameFruit;
  fruitToLaunch : option GameFruit;
  fruitInQueue : QueuedFruit;
  mousePos : Position;
  timers : nat;
  frames : nat;
  updates : nat;
  gameOvers : nat
}.

Definition set_score (v : Z) (g : t) : t :=
  mk v (gameOver g) (fruits g) (fruitToLaunch g) (fruitInQueue g)
     (mousePos g) (timers g) (frames g) (updates g) (gameOvers g).
Definition set_gameOver (v : bool) (g : t) : t :=
  mk (score g) v (fruits g) (fruitToLaunch g) (fruitInQueue g)
     (mousePos g) (timers g) (frames g) (updates g) (gameOvers g).
Definition set_fruits (v : list GameFruit) (g : t) : t :=
  mk (score g) (gameOver g) v (fruitToLaunch g) (fruitInQueue g)
     (mousePos g) (timers g) (frames g) (updates g) (gameOvers g).
Definition set_fruitToLaunch (v : option GameFruit) (g : t) : t :=
  mk (score g) (gameOver g) (fruits g) v (fruitInQueue g)
     (mousePos g) (timers g) (frames g) (updates g) (gameOvers g).
Definition set_fruitInQueue (v : QueuedFruit) (g : t) : t :=
  mk (score g) (gameOver g) (fruits g) (fruitToLaunch g) v
     (mousePos g) (timers g) (frames g) (updates g) (gameOvers g).
Definition set_mousePos (v : Position) (g : t) : t :=
  mk (score g) (gameOver g) (fruits g) (fruitToLaunch g) (fruitInQueue g)
     v (timers g) (frames g) (updates g) (gameOvers g).
Definition set_timers (v : nat) (g : t) : t :=
  mk (score g) (gameOver g) (fruits g) (fruitToLaunch g) (fruitInQueue g)
     (mousePos g) v (frames g) (updates g) (gameOvers g).
Definition set_frames (v : nat) (g : t) : t :=
  mk (score g) (gameOver g) (fruits g) (fruitToLaunch g) (fruitInQueue g)
     (mousePos g) (timers g) v (updates g) (gameOvers g).
Definition set_updates (v : nat) (g : t) : t :=
  mk (score g) (gameOver g) (fruits g) (fruitToLaunch g) (fruitInQueue g)
     (mousePos g) (timers g) (frames g) v (gameOvers g).
Definition set_gameOvers (v : nat) (g : t) : t :=
  mk (score g) (gameOver g) (fruits g) (fruitToLaunch g) (fruitInQueue g)
     (mousePos g) (timers g) (frames g) (updates g) v.
End G.

(** The comparisons of the source, as decidable relations. *)
#[global] Instance Rlt_decision : RelDecision Rlt := Rlt_dec.
#[global] Instance Rgt_decision : RelDecision Rgt := Rgt_dec.
#[global] Instance Rle_decision : RelDecision Rle := Rle_dec.
#[global] Instance Rge_decision : RelDecision Rge := Rge_dec.

(** [Math.atan2(dy, dx)], by the quadrant of [(dx, dy)]. *)
Definition atan2 (dy dx : R) : R :=
  if decide (0 < dx) then atan (dy / dx)
  else if decide (dx < 0) then
    (if decide (dy < 0) then atan (dy / dx) - PI else atan (dy / dx) + PI)
  else if decide (0 < dy) then PI / 2
  else if decide (dy < 0) then - PI / 2
  else 0.

(** [Math.floor], for the non-negative argument the source gives it. *)
Definition floor (r : R) : nat := Z.to_nat (Zfloor r).

Section Simulation.

Variable canvas : Canvas.

(** ** Launch: the [mousedown] handler *)

Definition launchSpeed (dx dy : R) : R :=
  let distance := sqrt (dx * dx + dy * dy) in
  Rmin (distance * 0.1) 30.

Definition mousedown (g : G.t) : G.t :=
  match G.fruitToLaunch g with
  | Some fruitToLaunch =>
      let dx := pos_x (G.mousePos g) - x fruitToLaunch in
      let dy := pos_y (G.mousePos g) - y fruitToLaunch in
      let speed := launchSpeed dx dy in
      let angle0 := atan2 dy dx in
      let launched :=
        mkGameFruit (queued fruitToLaunch) (x fruitToLaunch) (y fruitToLaunch)
          (cos angle0 * speed) (sin angle0 * speed) (angle fruitToLaunch) in
      G.set_timers (S (G.timers g))
        (G.set_fruitToLaunch None
           (G.set_fruits (G.fruits g ++ [launched]) g))
  | None => g
  end.

(** [mousemove] handler. *)
Definition mousemove (p : Position) (g : G.t) : G.t := G.set_mousePos p g.

(** ** Phase A of [update]: the body of the first [forEach] *)

Definition moveFruit (fruit : GameFruit) : GameFruit :=
  let vx1 := vx fruit * 0.98 in
  let vy1 := vy fruit * 0.98 in
  let x1 := x fruit + vx1 in
  let y1 := y fruit + vy1 in
  let angle1 := angle fruit + vx1 * 0.05 in
  let '(x2, vx2) :=
    if decide (x1 - radius fruit < 0) then (radius fruit, vx1 * -0.7)
    else if decide (x1 + radius fruit > width canvas)
         then (width canvas - radius fruit, vx1 * -0.7)
         else (x1, vx1) in
  let '(y2, vy2) :=
    if decide (y1 - radius fruit < 0) then (radius fruit, vy1 * -0.7)
    else if decide (y1 + radius fruit > height canvas)
         then (height canvas - radius fruit, vy1 * -0.7)
         else (y1, vy1) in
  mkGameFruit (queued fruit) x2 y2 vx2 vy2 angle1.

(** ** Phase B of [update]: the body of the two nested [for] loops *)

(** [distance] and the test [distance < minDistance] of the source. *)
Definition distance (f1 f2 : GameFruit) : R :=
  let dx := x f2 - x f1 in
  let dy := y f2 - y f1 in
  sqrt (dx * dx + dy * dy).

Definition colliding (f1 f2 : GameFruit) : Prop :=
  distance f1 f2 < radius f1 + radius f2.

#[global] Instance colliding_dec f1 f2 : Decision (colliding f1 f2) :=
  Rlt_dec _ _.

(** The separation and the elastic response: the objects [f1] and [f2] as
    the source has mutated them when it reaches the merge check. *)
Definition bounce (f1 f2 : GameFruit) : GameFruit * GameFruit :=
  let dx := x f2 - x f1 in
  let dy := y f2 - y f1 in
  let minDistance := radius f1 + radius f2 in
  let angle0 := atan2 dy dx in
  let overlap := minDistance - distance f1 f2 in
  let tx := cos angle0 * overlap in
  let ty := sin angle0 * overlap in
  let m1 := radius f1 in
  let m2 := radius f2 in
  let v1_new_x := (vx f1 * (m1 - m2) + 2 * m2 * vx f2) / (m1 + m2) in
  let v1_new_y := (vy f1 * (m1 - m2) + 2 * m2 * vy f2) / (m1 + m2) in
  let v2_new_x := (vx f2 * (m2 - m1) + 2 * m1 * vx f1) / (m1 + m2) in
  let v2_new_y := (vy f2 * (m2 - m1) + 2 * m1 * vy f1) / (m1 + m2) in
  (mkGameFruit (queued f1) (x f1 - tx / 2) (y f1 - ty / 2)
     (v1_new_x * 0.95) (v1_new_y * 0.95) (angle f1),
   mkGameFruit (queued f2) (x f2 + tx / 2) (y f2 + ty / 2)
     (v2_new_x * 0.95) (v2_new_y * 0.95) (angle f2)).

(** The merge check: [f1.typeIndex === f2.typeIndex && f1.typeIndex <
    fruitTypes.length - 1]. *)
Definition merging (f1 f2 : GameFruit) : bool :=
  bool_decide (typeIndex f1 = typeIndex f2)
  && bool_decide (typeIndex f1 < length fruitTypes - 1)%nat.

(** [newFruit], from the two objects as [bounce] left them. *)
Definition newFruit (f1 f2 : GameFruit) : GameFruit :=
  let newTypeIndex := (typeIndex f1 + 1)%nat in
  let newFruitType := fruitTypes_at newTypeIndex in
  let m1 := radius f1 in
  let m2 := radius f2 in
  let newMass := radius newFruitType in
  let newVx := ((m1 * vx f1 + m2 * vx f2) / newMass) * 0.5 in
  let newVy := ((m1 * vy f1 + m2 * vy f2) / newMass) * 0.5 in
  mkGameFruit (mkQueuedFruit newFruitType newTypeIndex)
    ((x f1 + x f2) / 2) ((y f1 + y f2) / 2) newVx newVy 0.

(** [collide i j g] is one pass through the body of the inner loop, for the
    fruits at indices [i] and [j] of [fruits]; the boolean says whether the
    pass ended in [break] (a merge).  The source mutates the two objects in
    place: the model writes the updated records back at their indices.  The
    loops call the body with both indices in range (out of range the
    source would throw; the model does nothing). *)
Definition collide (i j : nat) (g : G.t) : G.t * bool :=
  match G.fruits g !! i, G.fruits g !! j with
  | Some f1, Some f2 =>
      if decide (colliding f1 f2) then
        let '(f1', f2') := bounce f1 f2 in
        if merging f1' f2' then
          let newTypeIndex := (typeIndex f1' + 1)%nat in
          (G.set_score (G.score g + score (fruitTypes_at newTypeIndex))
             (G.set_fruits
                (delete i (delete j (G.fruits g)) ++ [newFruit f1' f2']) g),
           true)
        else (G.set_fruits (<[j:=f2']> (<[i:=f1']> (G.fruits g))) g, false)
      else (g, false)
  | _, _ => (g, false)
  end.

(** [for (let j = ...; j < fruits.length; j++)], entered at [j].  The loop
    runs at most [fruits.length - j] times: the length only changes at a
    merge, which leaves the loop.  [n] bounds the number of passes. *)
Fixpoint innerLoop (n : nat) (i j : nat) (g : G.t) : G.t :=
  match n with
  | O => g
  | S n' =>
      if bool_decide (j < length (G.fruits g))%nat then
        let '(g', merged) := collide i j g in
        if merged then g' else innerLoop n' i (S j) g'
      else g
  end.

(** [for (let i = ...; i < fruits.length; i++)], entered at [i]; the inner
    loop starts at [j = i + 1]. *)
Fixpoint outerLoop (n : nat) (i : nat) (g : G.t) : G.t :=
  match n with
  | O => g
  | S n' =>
      if bool_decide (i < length (G.fruits g))%nat then
        outerLoop n' (S i) (innerLoop (length (G.fruits g)) i (S i) g)
      else g
  end.

(** [function update()]. *)
Definition update (g : G.t) : G.t :=
  let g1 := G.set_fruits (map moveFruit (G.fruits g)) g in
  outerLoop (length (G.fruits g1)) 0 g1.

(** ** Fill gauge *)

(** [function calculateFillPercentage()]. *)
Definition calculateFillPercentage (g : G.t) : R :=
  let totalCanvasArea := width canvas * height canvas in
  let occupiedArea :=
    fold_left (fun acc (fruit : GameFruit) =>
                 acc + PI * radius fruit * radius fruit)
              (G.fruits g) 0 in
  Rmin ((occupiedArea / totalCanvasArea) * 100) 100.

(** [function drawFillGauge()]: of the drawing, the game-over check. *)
Definition drawFillGauge (g : G.t) : G.t :=
  let fillPercentage := calculateFillPercentage g in
  if bool_decide (fillPercentage >= 90) && negb (G.gameOver g)
  then G.set_gameOvers (S (G.gameOvers g)) (G.set_gameOver true g)
  else g.

(** [function draw()]: it changes the globals through [drawFillGauge]
    only. *)
Definition draw (g : G.t) : G.t := drawFillGauge g.

(** [function gameLoop()]. *)
Definition gameLoop (g : G.t) : G.t :=
  if G.gameOver g then g
  else
    let g1 := G.set_updates (S (G.updates g)) (update g) in
    let g2 := draw g1 in
    G.set_frames (S (G.frames g2)) g2.

(** ** Spawning *)

(** [function isOverlapping(x, y, radius)]. *)
Definition isOverlapping (g : G.t) (x0 y0 radius0 : R) : bool :=
  existsb (fun fruit : GameFruit =>
             let dx := x0 - x fruit in
             let dy := y0 - y fruit in
             let distance := sqrt (dx * dx + dy * dy) in
             bool_decide (distance < radius0 + radius fruit))
          (G.fruits g).

(** [function generateRandomFruit()]; [r] is the draw of [Math.random()]. *)
Definition generateRandomFruit (r : R) : QueuedFruit :=
  let typeIndex0 := floor (r * 5) in
  mkQueuedFruit (fruitTypes_at typeIndex0) typeIndex0.

(** The [while (true)] loop of [prepareNextFruit], entered with the
    current [searchOffset]; [x0] is the centre, which the loop leaves
    unchanged until it exits.  [fuel] bounds the number of passes: [None]
    is a loop still running when the fuel is spent. *)
Fixpoint searchLoop (fuel : nat) (g : G.t) (x0 y0 radius0 searchOffset : R)
  : option R :=
  match fuel with
  | O => None
  | S fuel' =>
      let rightX := x0 + searchOffset in
      if bool_decide (rightX + radius0 < width canvas)
         && negb (isOverlapping g rightX y0 radius0)
      then Some rightX
      else
        let leftX := x0 - searchOffset in
        if bool_decide (leftX - radius0 > 0)
           && negb (isOverlapping g leftX y0 radius0)
        then Some leftX
        else
          let searchOffset' := searchOffset + 5 in
          if bool_decide (x0 - searchOffset' < 0)
             && bool_decide (x0 + searchOffset' > width canvas)
          then Some x0
          else searchLoop fuel' g x0 y0 radius0 searchOffset'
  end.

(** [function prepareNextFruit()]; [r] is the draw of [Math.random()]. *)
Definition prepareNextFruit (fuel : nat) (r : R) (g : G.t) : option G.t :=
  let newFruitType := G.fruitInQueue g in
  let g1 := G.set_fruitInQueue (generateRandomFruit r) g in
  let radius0 := radius newFruitType in
  let y0 := height canvas - 50 in
  let x0 := width canvas / 2 in
  x1 ← (if isOverlapping g1 x0 y0 radius0
        then searchLoop fuel g1 x0 y0 radius0 5
        else Some x0);
  Some (G.set_fruitToLaunch (Some (mkGameFruit newFruitType x1 y0 0 0 0)) g1).

(** [function init()]. *)
Definition init (fuel : nat) (r1 r2 : R) (g : G.t) : option G.t :=
  let g1 := G.set_fruits [] (G.set_gameOver false (G.set_score 0 g)) in
  let g2 := G.set_fruitInQueue (generateRandomFruit r1) g1 in
  g3 ← prepareNextFruit fuel r2 g2;
  Some (gameLoop g3).

(** ** The event loop of the host *)

Inductive Event :=
  | MouseMove (p : Position)
  | MouseDown
  | Timeout (r : R)
  | AnimationFrame
  | Restart (r1 r2 : R).

(** One callback of the script runs to completion.  A timer fires only if
    one is armed, an animation frame only if one is queued; the draws of
    [Math.random] are in [0, 1). *)
Inductive step : G.t -> Event -> G.t -> Prop :=
  | step_mousemove g p :
      step g (MouseMove p) (mousemove p g)
  | step_mousedown g :
      step g MouseDown (mousedown g)
  | step_timeout g r fuel g' :
      (0 < G.timers g)%nat -> 0 <= r < 1 ->
      prepareNextFruit fuel r (G.set_timers (pred (G.timers g)) g) = Some g' ->
      step g (Timeout r) g'
  | step_frame g :
      (0 < G.frames g)%nat ->
      step g AnimationFrame (gameLoop (G.set_frames (pred (G.frames g)) g))
  | step_restart g r1 r2 fuel g' :
      0 <= r1 < 1 -> 0 <= r2 < 1 ->
      init fuel r1 r2 g = Some g' ->
      step g (Restart r1 r2) g'.

(** The globals when the script is loaded, before its last line calls
    [init()]: [fruitToLaunch] and [fruitInQueue] are still [undefined]
    ([init] assigns [fruitInQueue] before anything reads it). *)
Definition boot : G.t :=
  G.mk 0 false [] None (mkQueuedFruit noFruitType 0) (mkPosition 0 0)
       0 0 0 0.

Inductive reachable : G.t -> Prop :=
  | reachable_init fuel r1 r2 g :
      0 <= r1 < 1 -> 0 <= r2 < 1 ->
      init fuel r1 r2 boot = Some g ->
      reachable g
  | reachable_step g e g' :
      reachable g -> step g e g' -> reachable g'.

End Simulation.

(** ** Vocabulary of the properties *)

(** The wall tests of phase A, on the fruit as [update] finds it: after
    friction and the move, an edge is past a vertical (resp. horizontal)
    wall. *)
Definition crosses_x (canvas : Canvas) (f : GameFruit) : Prop :=
  x f + vx f * 0.98 - radius f < 0
  \/ x f + vx f * 0.98 + radius f > width canvas.

Definition crosses_y (canvas : Canvas) (f : GameFruit) : Prop :=
  y f + vy f * 0.98 - radius f < 0
  \/ y f + vy f * 0.98 + radius f > height canvas.

(** No two fruits of the list overlap: phase B finds nothing to do. *)
Definition no_overlap (fs : list GameFruit) : Prop :=
  forall (i j : nat) (f1 f2 : GameFruit),
    (i < j)%nat -> fs !! i = Some f1 -> fs !! j = Some f2 ->
    ~ colliding f1 f2.

(** Concrete inputs: a 400 x 600 canvas, a fruit of the catalog at rest
    angle, and the globals around a list of active fruits. *)
Definition field : Canvas := mkCanvas 400 600.

Definition fruitAt (i : nat) (x0 y0 vx0 vy0 : R) : GameFruit :=
  mkGameFruit (mkQueuedFruit (fruitTypes_at i) i) x0 y0 vx0 vy0 0.

Definition world (fs : list GameFruit) (pending : option GameFruit) : G.t :=
  G.mk 0 false fs pending (mkQueuedFruit (fruitTypes_at 0) 0)
       (mkPosition 0 0) 0 1 0 0.

(** The occupancy in the words of the specification: the sum of
    [PI * r^2] over the active fruits, as a percentage of the area of the
    field, capped at 100. *)
Definition area_sum (fs : list GameFruit) : R :=
  fold_right (fun (f : GameFruit) acc => PI * (radius f * radius f) + acc) 0 fs.

Definition occupancy_spec (canvas : Canvas) (fs : list GameFruit) : R :=
  Rmin 100 (100 * area_sum fs / (width canvas * height canvas)).

(** Runs of the event loop. *)
Definition is_restart (e : Event) : bool :=
  match e with
  | Restart _ _ => true
  | _ => false
  end.

Inductive run (canvas : Canvas) : G.t -> list Event -> G.t -> Prop :=
  | run_nil g : run canvas g [] g
  | run_cons g e g' es g'' :
      step canvas g e g' -> run canvas g' es g'' ->
      run canvas g (e :: es) g''.

(** A fruit agrees with the catalog: its index is one of the catalog and
    its fruit-type fields are those of that entry.  A spawned fruit comes
    from the first five entries. *)
Definition in_catalog (q : QueuedFruit) : Prop :=
  (typeIndex q <= 10)%nat /\ fruitType q = fruitTypes_at (typeIndex q).

Definition spawnable (q : QueuedFruit) : Prop :=
  (typeIndex q <= 4)%nat /\ fruitType q = fruitTypes_at (typeIndex q).

Definition catalog_inv (g : G.t) : Prop :=
  Forall (fun f : GameFruit => in_catalog f) (G.fruits g)
  /\ (forall p : GameFruit, G.fruitToLaunch g = Some p -> spawnable p)
  /\ spawnable (G.fruitInQueue g).

(** Spawn placement in the words of the specification.  A candidate
    abscissa is free when the circle is strictly inside the horizontal
    bounds and overlaps no active fruit; the placement is the first free
    candidate among [c + 5], [c - 5], [c + 10], [c - 10], ... and the
    centre [c] when there is none. *)
Definition inside (canvas : Canvas) (radius0 cx : R) : Prop :=
  0 < cx - radius0 /\ cx + radius0 < width canvas.

Definition free_slot (canvas : Canvas) (g : G.t) (y0 radius0 cx : R) : Prop :=
  inside canvas radius0 cx /\ isOverlapping g cx y0 radius0 = false.

Definition none_free_before (canvas : Canvas) (g : G.t) (y0 radius0 c : R)
    (k : nat) : Prop :=
  forall k' : nat, (1 <= k' < k)%nat ->
    ~ free_slot canvas g y0 radius0 (c + 5 * INR k')
    /\ ~ free_slot canvas g y0 radius0 (c - 5 * INR k').

Definition first_free (canvas : Canvas) (g : G.t) (y0 radius0 c xx : R)
  : Prop :=
  (exists k : nat, (1 <= k)%nat
     /\ xx = c + 5 * INR k
     /\ free_slot canvas g y0 radius0 (c + 5 * INR k)
     /\ none_free_before canvas g y0 radius0 c k)
  \/ (exists k : nat, (1 <= k)%nat
        /\ xx = c - 5 * INR k
        /\ free_slot canvas g y0 radius0 (c - 5 * INR k)
        /\ ~ free_slot canvas g y0 radius0 (c + 5 * INR k)
        /\ none_free_before canvas g y0 radius0 c k)
  \/ (xx = c
      /\ forall k : nat, (1 <= k)%nat ->
           ~ free_slot canvas g y0 radius0 (c + 5 * INR k)
           /\ ~ free_slot canvas g y0 radius0 (c - 5 * INR k)).

(** [g'] is [g] but for [fruits] and [score]: the footprint of
    [update]. *)
Definition only_fruits_score (g g' : G.t) : Prop :=
  g' = G.set_score (G.score g') (G.set_fruits (G.fruits g') g).

(** ** Rendering: what [draw] and [drawFillGauge] compute *)

(** [Math.round]: the nearest integer, halves upwards. *)
Definition round (r : R) : Z := Zfloor (r + 0.5).

(** The end point of the aiming line of [draw]; [None] when no fruit is
    waiting to be launched (no line is drawn). *)
Definition aimLineEnd (canvas : Canvas) (g : G.t) : option Position :=
  match G.fruitToLaunch g with
  | Some fruitToLaunch =>
      let dx := pos_x (G.mousePos g) - x fruitToLaunch in
      let dy := pos_y (G.mousePos g) - y fruitToLaunch in
      let distance0 := sqrt (dx * dx + dy * dy) in
      let maxLength := width canvas * 0.25 in
      if decide (distance0 > maxLength) then
        let angle0 := atan2 dy dx in
        Some (mkPosition (x fruitToLaunch + cos angle0 * maxLength)
                         (y fruitToLaunch + sin angle0 * maxLength))
      else Some (G.mousePos g)
  | None => None
  end.

(** The colour of the fill level in [drawFillGauge], as the three numbers
    of the [rgb(r, g, b)] string. *)
Definition gaugeColor (fillPercentage : R) : Z * Z * Z :=
  if decide (fillPercentage <= 50) then
    let ratio := fillPercentage / 50 in
    (round (255 * ratio), round (128 + 127 * ratio), 0%Z)
  else
    let ratio := (fillPercentage - 50) / 50 in
    (255%Z, round (255 * (1 - ratio)), 0%Z).

(** The height of the filled part of the gauge and the number shown in
    the percentage text. *)
Definition gaugeFillHeight (gaugeHeight fillPercentage : R) : R :=
  (fillPercentage / 100) * gaugeHeight.

Definition gaugeText (fillPercentage : R) : Z := round fillPercentage.

(** ** More vocabulary *)

(** The weight of a list of fruits: a fruit of type index [k] counts for
    [2 ^ k] cherries. *)
Definition weight (fs : list GameFruit) : nat :=
  foldr (fun (f : GameFruit) acc => (2 ^ typeIndex f + acc)%nat) 0%nat fs.

(** A fruit at rest, with its circle inside the field. *)
Definition at_rest_inside (canvas : Canvas) (f : GameFruit) : Prop :=
  vx f = 0 /\ vy f = 0
  /\ radius f <= x f <= width canvas - radius f
  /\ radius f <= y f <= height canvas - radius f.


(** Case analysis on the wall tests of [moveFruit]. *)
Ltac case_walls :=
  repeat match goal with
         | |- context [decide ?P] => destruct (decide P)
         end;
  simpl in *; try lra;
  try match goal with
      | H : _ \/ _ |- _ => destruct H; lra
      | H : ~ (_ \/ _) |- _ => exfalso; apply H; (left; lra) || (right; lra)
      end.

(* ===================================================================== *)
(** * Properties *)
(* ===================================================================== *)

(** ** Phase A *)

Lemma moveFruit_queued canvas f : queued (moveFruit canvas f) = queued f.
Proof.
  unfold moveFruit.
  repeat match goal with |- context [decide ?P] => destruct (decide P) end;
    reflexivity.
Qed.

Lemma moveFruit_x canvas f :
  x (moveFruit canvas f) =
    if decide (x f + vx f * 0.98 - radius f < 0) then radius f
    else if decide (x f + vx f * 0.98 + radius f > width canvas)
         then width canvas - radius f
         else x f + vx f * 0.98.
Proof.
  unfold moveFruit.
  repeat match goal with |- context [decide ?P] => destruct (decide P) end;
    reflexivity.
Qed.

Lemma moveFruit_vx canvas f :
  vx (moveFruit canvas f) =
    if decide (crosses_x canvas f) then vx f * 0.98 * -0.7 else vx f * 0.98.
Proof.
  unfold moveFruit, crosses_x.
  repeat match goal with |- context [decide ?P] => destruct (decide P) end;
    simpl; try reflexivity; tauto.
Qed.

Lemma moveFruit_y canvas f :
  y (moveFruit canvas f) =
    if decide (y f + vy f * 0.98 - radius f < 0) then radius f
    else if decide (y f + vy f * 0.98 + radius f > height canvas)
         then height canvas - radius f
         else y f + vy f * 0.98.
Proof.
  unfold moveFruit.
  repeat match goal with |- context [decide ?P] => destruct (decide P) end;
    reflexivity.
Qed.

Lemma moveFruit_vy canvas f :
  vy (moveFruit canvas f) =
    if decide (crosses_y canvas f) then vy f * 0.98 * -0.7 else vy f * 0.98.
Proof.
  unfold moveFruit, crosses_y.
  repeat match goal with |- context [decide ?P] => destruct (decide P) end;
    simpl; try reflexivity; tauto.
Qed.

(** ** Phase B: the loops *)

(** The body does nothing to a pair that does not overlap. *)
Lemma collide_apart i j g :
  (forall f1 f2, G.fruits g !! i = Some f1 -> G.fruits g !! j = Some f2 ->
                 ~ colliding f1 f2) ->
  collide i j g = (g, false).
Proof.
  intros Hapart. unfold collide.
  destruct (G.fruits g !! i) as [f1|] eqn:E1; [|reflexivity].
  destruct (G.fruits g !! j) as [f2|] eqn:E2; [|reflexivity].
  destruct (decide (colliding f1 f2)) as [Hc|]; [|reflexivity].
  exfalso. exact (Hapart f1 f2 eq_refl eq_refl Hc).
Qed.

Lemma innerLoop_apart n i g :
  no_overlap (G.fruits g) ->
  forall j, (i < j)%nat -> innerLoop n i j g = g.
Proof.
  intros Hno. induction n as [|n IH]; intros j Hij; simpl; [reflexivity|].
  case_bool_decide; [|reflexivity].
  rewrite collide_apart.
  - apply IH. lia.
  - intros f1 f2 H1 H2. exact (Hno i j f1 f2 Hij H1 H2).
Qed.

Lemma outerLoop_apart n g :
  no_overlap (G.fruits g) -> forall i, outerLoop n i g = g.
Proof.
  intros Hno. induction n as [|n IH]; intros i; simpl; [reflexivity|].
  case_bool_decide; [|reflexivity].
  rewrite innerLoop_apart by (auto; lia). apply IH.
Qed.

Lemma update_apart canvas g :
  no_overlap (map (moveFruit canvas) (G.fruits g)) ->
  update canvas g = G.set_fruits (map (moveFruit canvas) (G.fruits g)) g.
Proof.
  intros Hno. unfold update. apply outerLoop_apart. exact Hno.
Qed.

Lemma no_overlap_single f : no_overlap [f].
Proof.
  intros i j f1 f2 Hij H1 H2.
  apply lookup_lt_Some in H2. simpl in H2. lia.
Qed.

Lemma update_single canvas g f :
  G.fruits g = [f] -> G.fruits (update canvas g) = [moveFruit canvas f].
Proof.
  intros Hg. rewrite update_apart; rewrite Hg; simpl; [reflexivity|].
  apply no_overlap_single.
Qed.

(** The bounds given to the loops are never what stops them: the inner
    loop stops at a merge or at [j = fruits.length]. *)
Lemma collide_length i j g :
  snd (collide i j g) = false ->
  length (G.fruits (fst (collide i j g))) = length (G.fruits g).
Proof.
  unfold collide.
  destruct (G.fruits g !! i) as [f1|]; [|reflexivity].
  destruct (G.fruits g !! j) as [f2|]; [|reflexivity].
  destruct (decide (colliding f1 f2)); [|reflexivity].
  destruct (bounce f1 f2) as [f1' f2'].
  destruct (merging f1' f2'); simpl; [discriminate|].
  intros _. now rewrite !length_insert.
Qed.

Lemma innerLoop_bound n m i g :
  forall j,
    (length (G.fruits g) - j <= n)%nat -> (length (G.fruits g) - j <= m)%nat ->
    innerLoop n i j g = innerLoop m i j g.
Proof.
  revert m g. induction n as [|n IH]; intros m g j Hn Hm.
  - destruct m as [|m]; simpl; [reflexivity|].
    case_bool_decide; [lia|reflexivity].
  - destruct m as [|m]; simpl.
    + case_bool_decide; [lia|reflexivity].
    + case_bool_decide; [|reflexivity].
      pose proof (collide_length i j g) as Hlen.
      destruct (collide i j g) as [g' [|]]; [reflexivity|].
      simpl in Hlen. specialize (Hlen eq_refl).
      apply IH; lia.
Qed.

Lemma length_delete_le {A} (l : list A) i : (length (delete i l) <= length l)%nat.
Proof.
  revert i. induction l as [|a l IH]; intros [|i]; simpl; try lia.
  specialize (IH i). lia.
Qed.

Lemma collide_length_le i j g :
  (length (G.fruits (fst (collide i j g))) <= length (G.fruits g))%nat.
Proof.
  unfold collide.
  destruct (G.fruits g !! i) as [f1|]; [|reflexivity].
  destruct (G.fruits g !! j) as [f2|] eqn:E2; [|reflexivity].
  destruct (decide (colliding f1 f2)); [|reflexivity].
  destruct (bounce f1 f2) as [f1' f2'].
  destruct (merging f1' f2'); simpl.
  - rewrite length_app. simpl.
    pose proof (length_delete_le (delete j (G.fruits g)) i).
    rewrite (length_delete (G.fruits g) j) in H by (rewrite E2; eauto).
    apply lookup_lt_Some in E2. lia.
  - rewrite !length_insert. lia.
Qed.

Lemma innerLoop_length_le n i g :
  forall j, (length (G.fruits (innerLoop n i j g)) <= length (G.fruits g))%nat.
Proof.
  revert g. induction n as [|n IH]; intros g j; simpl; [lia|].
  case_bool_decide; [|lia].
  pose proof (collide_length_le i j g) as Hle.
  destruct (collide i j g) as [g' [|]]; simpl in Hle; [lia|].
  specialize (IH g' (S j)). lia.
Qed.

Lemma outerLoop_bound n m g :
  forall i,
    (length (G.fruits g) - i <= n)%nat -> (length (G.fruits g) - i <= m)%nat ->
    outerLoop n i g = outerLoop m i g.
Proof.
  revert m g. induction n as [|n IH]; intros m g i Hn Hm.
  - destruct m as [|m]; simpl; [reflexivity|].
    case_bool_decide; [lia|reflexivity].
  - destruct m as [|m]; simpl.
    + case_bool_decide; [lia|reflexivity].
    + case_bool_decide; [|reflexivity].
      pose proof (innerLoop_length_le (length (G.fruits g)) i g (S i)).
      apply IH; lia.
Qed.

(** What the body does to a pair that overlaps and passes the merge
    check. *)
Lemma bounce_queued f1 f2 :
  queued (fst (bounce f1 f2)) = queued f1
  /\ queued (snd (bounce f1 f2)) = queued f2.
Proof. split; reflexivity. Qed.

Lemma collide_merge i j g f1 f2 :
  G.fruits g !! i = Some f1 -> G.fruits g !! j = Some f2 ->
  colliding f1 f2 ->
  typeIndex f1 = typeIndex f2 -> (typeIndex f1 < 10)%nat ->
  collide i j g =
    (G.set_score (G.score g + score (fruitTypes_at (typeIndex f1 + 1)))
       (G.set_fruits
          (delete i (delete j (G.fruits g))
             ++ [newFruit (fst (bounce f1 f2)) (snd (bounce f1 f2))]) g),
     true).
Proof.
  intros H1 H2 Hc Hty Hlt. unfold collide. rewrite H1, H2.
  destruct (decide (colliding f1 f2)) as [_|Hn]; [|contradiction].
  destruct (bounce f1 f2) as [f1' f2'] eqn:Eb.
  assert (Hq1 : queued f1' = queued f1)
    by (change f1' with (fst (f1', f2')); rewrite <- Eb; apply bounce_queued).
  assert (Hq2 : queued f2' = queued f2)
    by (change f2' with (snd (f1', f2')); rewrite <- Eb; apply bounce_queued).
  unfold merging. rewrite Hq1, Hq2.
  rewrite bool_decide_eq_true_2 by exact Hty.
  rewrite bool_decide_eq_true_2 by (simpl; lia).
  simpl. reflexivity.
Qed.

Lemma collide_bounce i j g f1 f2 :
  G.fruits g !! i = Some f1 -> G.fruits g !! j = Some f2 ->
  colliding f1 f2 ->
  typeIndex f1 <> typeIndex f2 \/ (10 <= typeIndex f1)%nat ->
  collide i j g =
    (G.set_fruits
       (<[j:=snd (bounce f1 f2)]> (<[i:=fst (bounce f1 f2)]> (G.fruits g))) g,
     false).
Proof.
  intros H1 H2 Hc Hty. unfold collide. rewrite H1, H2.
  destruct (decide (colliding f1 f2)) as [_|Hn]; [|contradiction].
  destruct (bounce f1 f2) as [f1' f2'] eqn:Eb.
  assert (Hq1 : queued f1' = queued f1)
    by (change f1' with (fst (f1', f2')); rewrite <- Eb; apply bounce_queued).
  assert (Hq2 : queued f2' = queued f2)
    by (change f2' with (snd (f1', f2')); rewrite <- Eb; apply bounce_queued).
  unfold merging. rewrite Hq1, Hq2.
  destruct Hty as [Hne|Hge].
  - rewrite bool_decide_eq_false_2 by exact Hne. reflexivity.
  - rewrite (bool_decide_eq_false_2 (typeIndex f1 < _)%nat) by (simpl; lia).
    rewrite andb_false_r. reflexivity.
Qed.

(** Two fruits on one horizontal line: the distance of the source is the
    difference of the abscissas. *)
Lemma distance_horizontal f1 f2 :
  y f1 = y f2 -> x f1 <= x f2 -> distance f1 f2 = x f2 - x f1.
Proof.
  intros Hy Hx. unfold distance.
  replace ((x f2 - x f1) * (x f2 - x f1) + (y f2 - y f1) * (y f2 - y f1))
    with ((x f2 - x f1) * (x f2 - x f1)) by (rewrite Hy; ring).
  apply sqrt_square. lra.
Qed.

Lemma atan2_right dx : 0 < dx -> atan2 0 dx = 0.
Proof.
  intros Hdx. unfold atan2.
  destruct (decide (0 < dx)) as [_|Hn]; [|contradiction].
  replace (0 / dx) with 0 by (unfold Rdiv; ring). apply atan_0.
Qed.

(** ** The merge *)


(** ** Launch *)

Lemma launchSpeed_range dx dy : 0 <= launchSpeed dx dy <= 30.
Proof.
  unfold launchSpeed. split.
  - apply Rmin_glb; [|lra].
    pose proof (sqrt_pos (dx * dx + dy * dy)). lra.
  - apply Rmin_r.
Qed.

(** C3.  With a fruit [p] waiting to be launched and the mouse at
    [(ax, ay)], the [mousedown] handler gives the fruit the velocity
    [(cos a * s, sin a * s)], where [(dx, dy)] goes from the fruit to the
    mouse, [a = atan2 dy dx] and [s = min (0.1 * sqrt (dx^2 + dy^2)) 30]; the
    speed [s], which is also the norm of that velocity, is at most 30; the
    fruit is appended to [fruits] and [fruitToLaunch] is emptied. *)
Theorem mousedown_launches (g : G.t) (p : GameFruit) (ax ay : R) :
  G.fruitToLaunch g = Some p ->
  let dx := ax - x p in
  let dy := ay - y p in
  let a := atan2 dy dx in
  let s := Rmin (0.1 * sqrt (dx * dx + dy * dy)) 30 in
  let g' := mousedown (mousemove (mkPosition ax ay) g) in
  exists b : GameFruit,
    G.fruits g' = G.fruits g ++ [b]
    /\ G.fruitToLaunch g' = None
    /\ queued b = queued p /\ x b = x p /\ y b = y p
    /\ vx b = cos a * s /\ vy b = sin a * s
    /\ s <= 30
    /\ sqrt (vx b * vx b + vy b * vy b) = s.
Proof.
  intros Hp dx dy a s g'.
  assert (Hs : s = launchSpeed dx dy).
  { unfold s, launchSpeed. f_equal. ring. }
  pose proof (launchSpeed_range dx dy) as [Hs0 Hs30].
  unfold g', mousedown, mousemove. simpl. rewrite Hp. simpl.
  fold dx dy a. rewrite <- Hs.
  eexists. split; [reflexivity|]. simpl.
  repeat split; try lra.
  replace (cos a * s * (cos a * s) + sin a * s * (sin a * s))
    with ((Rsqr (sin a) + Rsqr (cos a)) * (s * s)) by (unfold Rsqr; ring).
  rewrite sin2_cos2, Rmult_1_l. apply sqrt_square. lra.
Qed.

Lemma mousedown_launches_witness :
  let p := fruitAt 2 200 550 0 0 in
  exists b : GameFruit,
    G.fruits (mousedown (mousemove (mkPosition 200 50) (world [] (Some p))))
      = [b]
    /\ sqrt (vx b * vx b + vy b * vy b) = 30.
Proof.
  intros p.
  destruct (mousedown_launches (world [] (Some p)) p 200 50 eq_refl)
    as (b & Hfs & _ & _ & _ & _ & _ & _ & _ & Hnorm).
  exists b. split; [exact Hfs|].
  rewrite Hnorm. simpl.
  replace ((200 - 200) * (200 - 200) + (50 - 550) * (50 - 550))
    with (500 * 500) by ring.
  rewrite sqrt_square by lra. unfold Rmin.
  destruct (Rle_dec (0.1 * 500) 30); lra.
Defined.

(** C8.  With no fruit waiting to be launched, the [mousedown] handler
    changes nothing: the globals (active fruits, score, game-over flag,
    pending and queued fruit) and the host's queues (no timer is armed) are
    as before, and the handler does complete. *)
Theorem mousedown_without_pending (canvas : Canvas) (g : G.t) :
  G.fruitToLaunch g = None ->
  mousedown g = g
  /\ (forall g', step canvas g MouseDown g' <-> g' = g).
Proof.
  intros Hnone.
  assert (Hsame : mousedown g = g) by (unfold mousedown; now rewrite Hnone).
  split; [exact Hsame|].
  intros g'. split.
  - inversion 1; subst. exact Hsame.
  - intros ->. rewrite <- Hsame at 2. constructor.
Qed.

Lemma mousedown_without_pending_witness :
  mousedown (world [fruitAt 0 100 300 0 0] None)
  = world [fruitAt 0 100 300 0 0] None.
Proof.
  exact (proj1 (mousedown_without_pending field
                  (world [fruitAt 0 100 300 0 0] None) eq_refl)).
Defined.

(** ** Walls *)

Lemma collide_length_merge i j g :
  (i < j)%nat -> snd (collide i j g) = true ->
  (length (G.fruits (fst (collide i j g))) + 1 = length (G.fruits g))%nat.
Proof.
  intros Hij. unfold collide.
  destruct (G.fruits g !! i) as [f1|] eqn:E1; [|discriminate].
  destruct (G.fruits g !! j) as [f2|] eqn:E2; [|discriminate].
  destruct (decide (colliding f1 f2)); [|discriminate].
  destruct (bounce f1 f2) as [f1' f2'].
  destruct (merging f1' f2'); simpl; [intros _|discriminate].
  rewrite length_app, length_delete; simpl.
  - rewrite length_delete by (rewrite E2; eauto).
    apply lookup_lt_Some in E1, E2. lia.
  - rewrite list_lookup_delete_lt, E1 by exact Hij. eauto.
Qed.

Lemma innerLoop_S n i j g :
  innerLoop (S n) i j g =
    if bool_decide (j < length (G.fruits g))%nat then
      let '(g', merged) := collide i j g in
      if merged then g' else innerLoop n i (S j) g'
    else g.
Proof. reflexivity. Qed.

Lemma outerLoop_S n i g :
  outerLoop (S n) i g =
    if bool_decide (i < length (G.fruits g))%nat then
      outerLoop n (S i) (innerLoop (length (G.fruits g)) i (S i) g)
    else g.
Proof. reflexivity. Qed.

Lemma innerLoop_end n i j g :
  (length (G.fruits g) <= j)%nat -> innerLoop n i j g = g.
Proof.
  intros Hj. destruct n as [|n]; [reflexivity|].
  rewrite innerLoop_S, bool_decide_eq_false_2 by lia. reflexivity.
Qed.

(** At the last index the inner loop is one pass of the body. *)
Lemma innerLoop_last n i j g :
  (j + 1 = length (G.fruits g))%nat ->
  innerLoop (S n) i j g = fst (collide i j g).
Proof.
  intros Hj. rewrite innerLoop_S, bool_decide_eq_true_2 by lia.
  pose proof (collide_length i j g) as Hsame.
  destruct (collide i j g) as [g' [|]]; simpl in *; [reflexivity|].
  apply innerLoop_end. rewrite Hsame by reflexivity. lia.
Qed.

(** With two active fruits, phase B is one pass of the loop body. *)
Lemma outerLoop_pair g a b :
  G.fruits g = [a; b] -> outerLoop 2 0 g = fst (collide 0 1 g).
Proof.
  intros Hg.
  assert (Hlen : length (G.fruits g) = 2%nat) by now rewrite Hg.
  rewrite outerLoop_S, bool_decide_eq_true_2 by lia.
  rewrite Hlen, innerLoop_last by lia.
  rewrite outerLoop_S. case_bool_decide; [|reflexivity].
  simpl outerLoop. apply innerLoop_end.
  pose proof (collide_length_le 0 1 g). lia.
Qed.

Lemma update_pair canvas g a b :
  G.fruits g = [a; b] ->
  update canvas g
  = fst (collide 0 1
           (G.set_fruits [moveFruit canvas a; moveFruit canvas b] g)).
Proof.
  intros Hg. unfold update. rewrite Hg. simpl length.
  now apply outerLoop_pair with (a := moveFruit canvas a)
                               (b := moveFruit canvas b).
Qed.

(** The separation and the response for two fruits on one horizontal
    line, the first one on the left. *)
Lemma bounce_horizontal f1 f2 :
  y f1 = y f2 -> x f1 < x f2 ->
  let overlap := radius f1 + radius f2 - (x f2 - x f1) in
  x (fst (bounce f1 f2)) = x f1 - overlap / 2
  /\ x (snd (bounce f1 f2)) = x f2 + overlap / 2
  /\ y (fst (bounce f1 f2)) = y f1
  /\ y (snd (bounce f1 f2)) = y f2.
Proof.
  intros Hy Hx overlap. unfold bounce. simpl.
  rewrite distance_horizontal by lra.
  replace (y f2 - y f1) with 0 by lra.
  rewrite atan2_right by lra. rewrite cos_0, sin_0.
  unfold overlap. repeat split; lra.
Qed.

(** C6, as the code has it.  Take a step in which no two fruits overlap
    once phase A has moved them, so that phase B changes nothing.  A fruit
    whose edge is past a wall in phase A ends the step with its edge
    tangent to that wall: the coordinate is [radius] at the left or top
    wall and [dimension - radius] at the right or bottom wall, hence between
    the two as soon as the diameter of the fruit fits the dimension; and the
    velocity component is the one
    before the step times [0.98 * -0.7]: the sign is flipped (zero stays
    zero). *)
Theorem update_wall_bounce (canvas : Canvas) (g : G.t) (k : nat)
    (f : GameFruit) :
  no_overlap (map (moveFruit canvas) (G.fruits g)) ->
  G.fruits g !! k = Some f ->
  exists f' : GameFruit,
    G.fruits (update canvas g) !! k = Some f'
    /\ queued f' = queued f
    /\ (crosses_x canvas f ->
          (x f + vx f * 0.98 - radius f < 0 -> x f' = radius f)
          /\ (0 <= x f + vx f * 0.98 - radius f ->
                x f' = width canvas - radius f)
          /\ (2 * radius f <= width canvas ->
                radius f <= x f' <= width canvas - radius f)
          /\ vx f' = vx f * 0.98 * -0.7
          /\ vx f' * vx f <= 0
          /\ (vx f <> 0 -> vx f' * vx f < 0))
    /\ (crosses_y canvas f ->
          (y f + vy f * 0.98 - radius f < 0 -> y f' = radius f)
          /\ (0 <= y f + vy f * 0.98 - radius f ->
                y f' = height canvas - radius f)
          /\ (2 * radius f <= height canvas ->
                radius f <= y f' <= height canvas - radius f)
          /\ vy f' = vy f * 0.98 * -0.7
          /\ vy f' * vy f <= 0
          /\ (vy f <> 0 -> vy f' * vy f < 0)).
Proof.
  intros Hno Hk. exists (moveFruit canvas f).
  rewrite update_apart by exact Hno. simpl.
  rewrite list_lookup_fmap, Hk. simpl.
  split; [reflexivity|]. split; [apply moveFruit_queued|].
  split; intros Hcross.
  - rewrite moveFruit_x, moveFruit_vx.
    destruct (decide (crosses_x canvas f)) as [_|Hn]; [|contradiction].
    unfold crosses_x in Hcross.
    repeat match goal with |- context [decide ?P] => destruct (decide P) end;
      try (exfalso; lra);
      (split; [lra|]); (split; [lra|]); (split; [lra|]);
      (split; [reflexivity|]);
      (split; [nra | intros Hv; nra]).
  - rewrite moveFruit_y, moveFruit_vy.
    destruct (decide (crosses_y canvas f)) as [_|Hn]; [|contradiction].
    unfold crosses_y in Hcross.
    repeat match goal with |- context [decide ?P] => destruct (decide P) end;
      try (exfalso; lra);
      (split; [lra|]); (split; [lra|]); (split; [lra|]);
      (split; [reflexivity|]);
      (split; [nra | intros Hv; nra]).
Qed.

Lemma update_wall_bounce_witness :
  let f := fruitAt 0 10.98 300 (-1) 0 in
  exists f' : GameFruit,
    G.fruits (update field (world [f] None)) !! 0%nat = Some f'
    /\ x f' = 15 /\ vx f' = 0.686.
Proof.
  intros f.
  destruct (update_wall_bounce field (world [f] None) 0 f)
    as (f' & Hk & _ & Hx & _).
  - apply no_overlap_single.
  - reflexivity.
  - exists f'. split; [exact Hk|].
    assert (Hc : crosses_x field f) by (left; simpl; lra).
    destruct (Hx Hc) as (Hl & _ & _ & Hv & _).
    split; [apply Hl; simpl; lra | rewrite Hv; simpl; lra].
Defined.

Lemma moveFruit_radius canvas f : radius (moveFruit canvas f) = radius f.
Proof. now rewrite moveFruit_queued. Qed.

(** C6 fails as stated.  First input: a cherry past the left wall next to
    a strawberry; phase A puts the cherry against the wall and phase B, in
    the same step, pushes it out again and gives it a velocity of the sign
    it had before the step.  Second input: a canvas narrower than the
    fruit. *)
Lemma wall_bounce_counterexample :
  let a := fruitAt 0 10.98 300 (-1) 0 in
  let b := fruitAt 1 40 300 0 0 in
  let c := fruitAt 0 3 300 (-1) 0 in
  crosses_x field a
  /\ (exists a' b' : GameFruit,
        G.fruits (update field (world [a; b] None)) = [a'; b']
        /\ queued a' = queued a
        /\ x a' = 10 /\ radius a' = 15 /\ ~ (radius a' <= x a')
        /\ vx a = -1 /\ vx a' = -0.0931 /\ ~ (vx a' * vx a <= 0))
  /\ crosses_x (mkCanvas 20 600) c
  /\ (exists c' : GameFruit,
        G.fruits (update (mkCanvas 20 600) (world [c] None)) = [c']
        /\ x c' = 15 /\ radius c' = 15 /\ ~ (x c' <= 20 - radius c')).
Proof.
  intros a b c.
  set (a1 := moveFruit field a). set (b1 := moveFruit field b).
  assert (Hax : x a1 = 15) by (unfold a1; rewrite moveFruit_x; case_walls).
  assert (Hay : y a1 = 300) by (unfold a1; rewrite moveFruit_y; case_walls).
  assert (Hbx : x b1 = 40) by (unfold b1; rewrite moveFruit_x; case_walls).
  assert (Hby : y b1 = 300) by (unfold b1; rewrite moveFruit_y; case_walls).
  assert (Hav : vx a1 = 0.686).
  { unfold a1. rewrite moveFruit_vx. unfold crosses_x. case_walls. }
  assert (Hbv : vx b1 = 0).
  { unfold b1. rewrite moveFruit_vx. unfold crosses_x. case_walls. }
  assert (Har : radius a1 = 15) by (unfold a1; now rewrite moveFruit_radius).
  assert (Hbr : radius b1 = 20) by (unfold b1; now rewrite moveFruit_radius).
  split; [left; simpl; lra|]. split.
  - rewrite (update_pair field _ a b) by reflexivity. fold a1 b1.
    rewrite (collide_bounce 0 1 _ a1 b1); try reflexivity.
    + exists (fst (bounce a1 b1)), (snd (bounce a1 b1)).
      split; [reflexivity|].
      destruct (bounce_horizontal a1 b1) as (Hx1 & _); [lra|lra|].
      split.
      { change (queued (fst (bounce a1 b1))) with (queued a1).
        apply moveFruit_queued. }
      assert (Hv : vx (fst (bounce a1 b1)) = -0.0931).
      { simpl. rewrite Har, Hbr, Hav, Hbv. lra. }
      change (radius (fst (bounce a1 b1))) with (radius a1).
      rewrite Hx1, Hv, Har, Hbr, Hbx, Hax.
      simpl. repeat split; lra.
    + unfold colliding. rewrite distance_horizontal; lra.
    + left. unfold a1, b1. rewrite !moveFruit_queued. simpl. lia.
  - split; [left; simpl; lra|].
    exists (moveFruit (mkCanvas 20 600) c).
    split; [now apply update_single|].
    rewrite moveFruit_radius, moveFruit_x. case_walls.
Qed.

(** C7, as the code has it.  A single active fruit with [vx = 10],
    [vy = 0] and its right edge 2 past the right wall
    ([x = width - radius + 2]), in a canvas wide enough for the left edge
    of the moved fruit not to be past the left wall: after one step
    [x = width - radius] and [vx = 10 * 0.98 * -0.7 = -6.86] (friction is
    applied before the bounce). *)
Theorem update_right_wall_scenario (canvas : Canvas) (g : G.t)
    (f : GameFruit) :
  G.fruits g = [f] ->
  vx f = 10 -> vy f = 0 ->
  x f = width canvas - radius f + 2 ->
  2 * radius f <= width canvas + 11.8 ->
  exists f' : GameFruit,
    G.fruits (update canvas g) = [f']
    /\ queued f' = queued f
    /\ x f' = width canvas - radius f
    /\ vx f' = -6.86
    /\ vy f' = 0.
Proof.
  intros Hg Hvx Hvy Hx Hwide. exists (moveFruit canvas f).
  split; [now apply update_single|].
  split; [apply moveFruit_queued|].
  rewrite moveFruit_x, moveFruit_vx, moveFruit_vy.
  unfold crosses_x, crosses_y. rewrite Hvx, Hvy, Hx.
  repeat split; case_walls.
Qed.

Lemma update_right_wall_scenario_witness :
  exists f' : GameFruit,
    G.fruits (update field (world [fruitAt 0 387 300 10 0] None)) = [f']
    /\ x f' = 385 /\ vx f' = -6.86.
Proof.
  destruct (update_right_wall_scenario field
              (world [fruitAt 0 387 300 10 0] None) (fruitAt 0 387 300 10 0))
    as (f' & Hfs & _ & Hx & Hv & _).
  - reflexivity.
  - reflexivity.
  - reflexivity.
  - simpl. lra.
  - simpl. lra.
  - exists f'. split; [exact Hfs|]. split; [|exact Hv].
    rewrite Hx. simpl. lra.
Defined.

(** C7 fails as stated: on the 400 x 600 canvas a cherry with [vx = 10],
    [vy = 0] and its right edge 2 past the right wall ends the step with
    [vx = -6.86], not [-7]; and in a canvas narrower than the fruit it ends
    the step against the left wall. *)
Lemma right_wall_scenario_counterexample :
  let f := fruitAt 0 387 300 10 0 in
  let c := fruitAt 0 (-3) 300 10 0 in
  (x f = width field - radius f + 2 /\ vx f = 10 /\ vy f = 0
   /\ exists f' : GameFruit,
        G.fruits (update field (world [f] None)) = [f']
        /\ x f' = width field - radius f'
        /\ vx f' = -6.86 /\ vx f' <> -7)
  /\ (x c = 10 - radius c + 2 /\ vx c = 10 /\ vy c = 0
      /\ exists c' : GameFruit,
           G.fruits (update (mkCanvas 10 600) (world [c] None)) = [c']
           /\ x c' = 15 /\ x c' <> 10 - radius c').
Proof.
  intros f c. split.
  - split; [simpl; lra|]. split; [reflexivity|]. split; [reflexivity|].
    exists (moveFruit field f). split; [now apply update_single|].
    rewrite moveFruit_radius, moveFruit_x, moveFruit_vx. unfold crosses_x.
    repeat split; case_walls.
  - split; [simpl; lra|]. split; [reflexivity|]. split; [reflexivity|].
    exists (moveFruit (mkCanvas 10 600) c). split; [now apply update_single|].
    rewrite moveFruit_radius, moveFruit_x. split; case_walls.
Qed.

(** ** Fill percentage *)

Section Occupancy.

Variable canvas : Canvas.

Lemma occupied_fold (fs : list GameFruit) : forall a : R,
  fold_left (fun acc (fruit : GameFruit) =>
               acc + PI * radius fruit * radius fruit) fs a
  = a + area_sum fs.
Proof.
  induction fs as [|f fs IH]; intros a; simpl.
  - ring.
  - rewrite IH. ring.
Qed.

Lemma area_sum_nonneg (fs : list GameFruit) : 0 <= area_sum fs.
Proof.
  induction fs as [|f fs IH]; simpl; [lra|].
  pose proof PI_RGT_0. pose proof (Rle_0_sqr (radius f)) as Hsq.
  unfold Rsqr in Hsq. nra.
Qed.

Lemma area_sum_app (fs gs : list GameFruit) :
  area_sum (fs ++ gs) = area_sum fs + area_sum gs.
Proof. induction fs as [|f fs IH]; simpl; [ring | rewrite IH; ring]. Qed.

Lemma area_sum_delete (fs : list GameFruit) : forall (i : nat) (f : GameFruit),
  fs !! i = Some f ->
  area_sum (delete i fs) = area_sum fs - PI * (radius f * radius f).
Proof.
  induction fs as [|f0 fs IH]; intros [|i] f Hi; simpl in *; try discriminate.
  - injection Hi as ->. ring.
  - rewrite (IH i f Hi). ring.
Qed.

Lemma fill_is_occupancy (g : G.t) :
  calculateFillPercentage canvas g = occupancy_spec canvas (G.fruits g).
Proof.
  unfold calculateFillPercentage, occupancy_spec.
  rewrite occupied_fold, Rmin_comm. f_equal. unfold Rdiv. ring.
Qed.

Lemma occupancy_mono (fs gs : list GameFruit) :
  0 < width canvas * height canvas ->
  area_sum fs <= area_sum gs ->
  occupancy_spec canvas fs <= occupancy_spec canvas gs.
Proof.
  intros Harea Hle. unfold occupancy_spec.
  apply Rle_min_compat_l. unfold Rdiv.
  apply Rmult_le_compat_r.
  - left. now apply Rinv_0_lt_compat.
  - lra.
Qed.

Lemma occupancy_range (fs : list GameFruit) :
  0 < width canvas * height canvas ->
  0 <= occupancy_spec canvas fs <= 100.
Proof.
  intros Harea. unfold occupancy_spec. split; [|apply Rmin_l].
  apply Rmin_glb; [lra|]. unfold Rdiv.
  apply Rmult_le_pos.
  - pose proof (area_sum_nonneg fs). lra.
  - left. now apply Rinv_0_lt_compat.
Qed.

End Occupancy.

(** In the catalog, the disc of an entry is smaller than two discs of the
    entry before it. *)
Lemma catalog_radius_step (k : nat) :
  (k < 10)%nat ->
  radius (fruitTypes_at (k + 1)) * radius (fruitTypes_at (k + 1))
  < 2 * (radius (fruitTypes_at k) * radius (fruitTypes_at k)).
Proof.
  intros Hk.
  do 10 (destruct k as [|k]; [simpl; lra|]). lia.
Qed.

(** C5, as the code has it.  On a field of positive area the fill
    percentage is [min 100 (100 * sum (PI * r^2) / (width * height))], so it
    lies in [0, 100]; and a merge never raises it: when the loop body
    replaces two overlapping fruits of one catalog entry by a fruit of the
    next entry, the fill percentage does not go up, and it goes down
    whenever it was below the cap of 100. *)
Theorem fill_percentage_merge (canvas : Canvas) (g : G.t) :
  0 < width canvas * height canvas ->
  (calculateFillPercentage canvas g = occupancy_spec canvas (G.fruits g)
   /\ 0 <= calculateFillPercentage canvas g <= 100)
  /\ (forall (i j : nat) (f1 f2 : GameFruit),
        (i < j)%nat ->
        G.fruits g !! i = Some f1 -> G.fruits g !! j = Some f2 ->
        colliding f1 f2 ->
        typeIndex f1 = typeIndex f2 -> (typeIndex f1 < 10)%nat ->
        fruitType f1 = fruitTypes_at (typeIndex f1) ->
        fruitType f2 = fruitTypes_at (typeIndex f2) ->
        let g' := fst (collide i j g) in
        calculateFillPercentage canvas g' <= calculateFillPercentage canvas g
        /\ (calculateFillPercentage canvas g < 100 ->
            calculateFillPercentage canvas g'
            < calculateFillPercentage canvas g)).
Proof.
  intros Harea. split.
  - rewrite fill_is_occupancy. split; [reflexivity|].
    now apply occupancy_range.
  - intros i j f1 f2 Hij H1 H2 Hc Hty Hlt Hcat1 Hcat2 g'.
    unfold g'. rewrite (collide_merge i j g f1 f2) by assumption.
    rewrite !fill_is_occupancy.
    unfold G.set_score, G.set_fruits. cbn [fst G.fruits].
    set (m := newFruit _ _).
    assert (Hm : radius m = radius (fruitTypes_at (typeIndex f1 + 1)))
      by reflexivity.
    assert (Hsum : area_sum (delete i (delete j (G.fruits g)) ++ [m])
                   < area_sum (G.fruits g)).
    { rewrite area_sum_app.
      rewrite (area_sum_delete _ i f1)
        by (rewrite list_lookup_delete_lt by exact Hij; exact H1).
      rewrite (area_sum_delete _ j f2) by exact H2.
      change (area_sum [m]) with (PI * (radius m * radius m) + 0).
      rewrite Hm.
      pose proof (catalog_radius_step (typeIndex f1) Hlt) as Hstep.
      rewrite Hcat1. rewrite Hcat2, <- Hty.
      pose proof PI_RGT_0. nra. }
    split.
    + apply occupancy_mono; [exact Harea | lra].
    + unfold occupancy_spec. intros Hbelow.
      assert (Hinv : 0 < / (width canvas * height canvas))
        by now apply Rinv_0_lt_compat.
      assert (Hlt' : 100 * area_sum (delete i (delete j (G.fruits g)) ++ [m])
                       / (width canvas * height canvas)
                     < 100 * area_sum (G.fruits g)
                       / (width canvas * height canvas)).
      { unfold Rdiv. apply Rmult_lt_compat_r; [exact Hinv | lra]. }
      revert Hbelow. unfold Rmin.
      repeat match goal with |- context [Rle_dec ?a ?b] =>
                              destruct (Rle_dec a b) end; lra.
Qed.

Lemma fill_percentage_merge_witness :
  let g := world [fruitAt 0 100 300 0 0; fruitAt 0 110 300 0 0] None in
  calculateFillPercentage field (fst (collide 0 1 g))
  <= calculateFillPercentage field g.
Proof.
  intros g.
  destruct (fill_percentage_merge field g) as [_ Hmerge]; [simpl; lra|].
  apply (Hmerge 0%nat 1%nat (fruitAt 0 100 300 0 0) (fruitAt 0 110 300 0 0)).
  - lia.
  - reflexivity.
  - reflexivity.
  - unfold colliding. rewrite distance_horizontal; simpl; lra.
  - reflexivity.
  - simpl; lia.
  - reflexivity.
  - reflexivity.
Defined.

(** The scenario of the specification: two cherries 10 apart, at rest.
    One step merges them into one strawberry at their midpoint and adds
    its score. *)
Lemma update_two_cherries :
  let g := world [fruitAt 0 100 300 0 0; fruitAt 0 110 300 0 0] None in
  exists m : GameFruit,
    G.fruits (update field g) = [m]
    /\ queued m = mkQueuedFruit (fruitTypes_at 1) 1
    /\ x m = 105 /\ y m = 300 /\ vx m = 0 /\ vy m = 0
    /\ G.score (update field g) = 2%Z.
Proof.
  intros g.
  set (a := fruitAt 0 100 300 0 0). set (b := fruitAt 0 110 300 0 0).
  set (a1 := moveFruit field a). set (b1 := moveFruit field b).
  assert (Hax : x a1 = 100) by (unfold a1; rewrite moveFruit_x; case_walls).
  assert (Hay : y a1 = 300) by (unfold a1; rewrite moveFruit_y; case_walls).
  assert (Hbx : x b1 = 110) by (unfold b1; rewrite moveFruit_x; case_walls).
  assert (Hby : y b1 = 300) by (unfold b1; rewrite moveFruit_y; case_walls).
  assert (Hav : vx a1 = 0 /\ vy a1 = 0).
  { unfold a1. rewrite moveFruit_vx, moveFruit_vy. split; case_walls. }
  assert (Hbv : vx b1 = 0 /\ vy b1 = 0).
  { unfold b1. rewrite moveFruit_vx, moveFruit_vy. split; case_walls. }
  assert (Hqa : queued a1 = queued a) by apply moveFruit_queued.
  assert (Hqb : queued b1 = queued b) by apply moveFruit_queued.
  assert (Har : radius a1 = 15) by now rewrite Hqa.
  assert (Hbr : radius b1 = 15) by now rewrite Hqb.
  unfold g. rewrite (update_pair field _ a b) by reflexivity. fold a1 b1.
  rewrite (collide_merge 0 1 _ a1 b1); try reflexivity.
  - eexists. split; [reflexivity|].
    destruct (bounce_horizontal a1 b1) as (Hx1 & Hx2 & Hy1 & Hy2); [lra|lra|].
    destruct Hav as [Havx Havy], Hbv as [Hbvx Hbvy].
    unfold newFruit.
    change (typeIndex (fst (bounce a1 b1))) with (typeIndex a1).
    change (radius (fst (bounce a1 b1))) with (radius a1).
    change (radius (snd (bounce a1 b1))) with (radius b1).
    cbn [queued x y vx vy G.score G.set_score G.set_fruits].
    rewrite Hx1, Hx2, Hy1, Hy2.
    assert (Hti : typeIndex a1 = 0%nat) by now rewrite Hqa.
    assert (Hv1 : vx (fst (bounce a1 b1)) = 0 /\ vy (fst (bounce a1 b1)) = 0).
    { simpl. rewrite Har, Hbr, Havx, Havy, Hbvx, Hbvy. split; lra. }
    assert (Hv2 : vx (snd (bounce a1 b1)) = 0 /\ vy (snd (bounce a1 b1)) = 0).
    { simpl. rewrite Har, Hbr, Havx, Havy, Hbvx, Hbvy. split; lra. }
    destruct Hv1 as [-> ->], Hv2 as [-> ->].
    rewrite Har, Hbr, Hax, Hbx, Hay, Hby, Hti. simpl.
    repeat split; try lra.
  - unfold colliding. rewrite distance_horizontal; lra.
  - now rewrite Hqa, Hqb.
  - rewrite Hqa. simpl. lia.
Qed.

(** C5 fails as stated: the step that merges two cherries into one
    strawberry lowers the fill percentage ([2 * 15^2 > 20^2]). *)
Lemma fill_percentage_counterexample :
  let g := world [fruitAt 0 100 300 0 0; fruitAt 0 110 300 0 0] None in
  (exists m : GameFruit,
     G.fruits (update field g) = [m] /\ typeIndex m = 1%nat)
  /\ calculateFillPercentage field (update field g)
     < calculateFillPercentage field g.
Proof.
  intros g.
  destruct update_two_cherries as (m & Hfs & Hq & _). fold g in Hfs.
  split; [exists m; split; [exact Hfs | now rewrite Hq]|].
  rewrite !fill_is_occupancy, Hfs. unfold occupancy_spec. simpl.
  rewrite Hq. simpl.
  pose proof PI_RGT_0. pose proof PI_4.
  unfold Rmin.
  repeat match goal with |- context [Rle_dec ?a ?b] =>
                          destruct (Rle_dec a b) end; lra.
Qed.

(** ** The footprint of [update] *)

Lemma only_fruits_score_refl g : only_fruits_score g g.
Proof. now destruct g. Qed.

Lemma only_fruits_score_trans g1 g2 g3 :
  only_fruits_score g1 g2 -> only_fruits_score g2 g3 ->
  only_fruits_score g1 g3.
Proof.
  unfold only_fruits_score. intros H12 H23.
  rewrite H23 at 1. rewrite H12 at 1. reflexivity.
Qed.

Lemma collide_footprint i j g : only_fruits_score g (fst (collide i j g)).
Proof.
  unfold collide.
  destruct (G.fruits g !! i) as [f1|]; [|apply only_fruits_score_refl].
  destruct (G.fruits g !! j) as [f2|]; [|apply only_fruits_score_refl].
  destruct (decide (colliding f1 f2)); [|apply only_fruits_score_refl].
  destruct (bounce f1 f2) as [f1' f2'].
  destruct (merging f1' f2'); reflexivity.
Qed.

Lemma innerLoop_footprint n i g :
  forall j, only_fruits_score g (innerLoop n i j g).
Proof.
  revert g. induction n as [|n IH]; intros g j; simpl.
  - apply only_fruits_score_refl.
  - case_bool_decide; [|apply only_fruits_score_refl].
    pose proof (collide_footprint i j g) as Hc.
    destruct (collide i j g) as [g' [|]]; simpl in Hc; [exact Hc|].
    eapply only_fruits_score_trans; [exact Hc | apply IH].
Qed.

Lemma outerLoop_footprint n g :
  forall i, only_fruits_score g (outerLoop n i g).
Proof.
  revert g. induction n as [|n IH]; intros g i; simpl.
  - apply only_fruits_score_refl.
  - case_bool_decide; [|apply only_fruits_score_refl].
    eapply only_fruits_score_trans; [apply innerLoop_footprint | apply IH].
Qed.

Lemma update_footprint canvas g : only_fruits_score g (update canvas g).
Proof.
  unfold update.
  eapply only_fruits_score_trans; [|apply outerLoop_footprint].
  reflexivity.
Qed.

Lemma update_keeps canvas g :
  G.gameOver (update canvas g) = G.gameOver g
  /\ G.fruitToLaunch (update canvas g) = G.fruitToLaunch g
  /\ G.fruitInQueue (update canvas g) = G.fruitInQueue g
  /\ G.updates (update canvas g) = G.updates g
  /\ G.gameOvers (update canvas g) = G.gameOvers g
  /\ G.frames (update canvas g) = G.frames g.
Proof.
  pose proof (update_footprint canvas g) as H. unfold only_fruits_score in H.
  rewrite H. repeat split.
Qed.

(** ** Type indices stay in the catalog *)

Lemma spawnable_in_catalog q : spawnable q -> in_catalog q.
Proof. intros [Hle Hty]. split; [lia | exact Hty]. Qed.

Lemma generateRandomFruit_spawnable r :
  0 <= r < 1 -> spawnable (generateRandomFruit r).
Proof.
  intros Hr. split; [|reflexivity]. simpl. unfold floor.
  pose proof (Zfloor_bound (r * 5)) as [Hlo _].
  assert (Hlt : IZR (Zfloor (r * 5)) < IZR 5) by lra.
  apply lt_IZR in Hlt. lia.
Qed.

Lemma collide_in_catalog i j g :
  Forall (fun f : GameFruit => in_catalog f) (G.fruits g) ->
  Forall (fun f : GameFruit => in_catalog f) (G.fruits (fst (collide i j g))).
Proof.
  intros Hall. unfold collide.
  destruct (G.fruits g !! i) as [f1|] eqn:E1; [|exact Hall].
  destruct (G.fruits g !! j) as [f2|] eqn:E2; [|exact Hall].
  destruct (decide (colliding f1 f2)); [|exact Hall].
  pose proof (bounce_queued f1 f2) as [Hq1 Hq2].
  destruct (bounce f1 f2) as [f1' f2']. simpl in Hq1, Hq2.
  pose proof (Forall_lookup_1 _ _ _ _ Hall E1) as Hf1.
  pose proof (Forall_lookup_1 _ _ _ _ Hall E2) as Hf2.
  simpl in Hf1, Hf2.
  destruct (merging f1' f2') eqn:Em; simpl.
  - apply Forall_app. split.
    + now apply Forall_delete, Forall_delete.
    + constructor; [|constructor].
      unfold merging in Em. apply andb_true_iff in Em as [_ Hlt].
      apply bool_decide_eq_true_1 in Hlt. simpl in Hlt.
      split; simpl; [lia | reflexivity].
  - apply Forall_insert; [apply Forall_insert|]; try assumption.
    + now rewrite Hq1.
    + now rewrite Hq2.
Qed.

Lemma innerLoop_in_catalog n i g :
  forall j,
    Forall (fun f : GameFruit => in_catalog f) (G.fruits g) ->
    Forall (fun f : GameFruit => in_catalog f) (G.fruits (innerLoop n i j g)).
Proof.
  revert g. induction n as [|n IH]; intros g j Hall; simpl; [exact Hall|].
  case_bool_decide; [|exact Hall].
  pose proof (collide_in_catalog i j g Hall) as Hc.
  destruct (collide i j g) as [g' [|]]; simpl in Hc; [exact Hc|].
  now apply IH.
Qed.

Lemma outerLoop_in_catalog n g :
  forall i,
    Forall (fun f : GameFruit => in_catalog f) (G.fruits g) ->
    Forall (fun f : GameFruit => in_catalog f) (G.fruits (outerLoop n i g)).
Proof.
  revert g. induction n as [|n IH]; intros g i Hall; simpl; [exact Hall|].
  case_bool_decide; [|exact Hall].
  apply IH. now apply innerLoop_in_catalog.
Qed.

Lemma update_in_catalog canvas g :
  Forall (fun f : GameFruit => in_catalog f) (G.fruits g) ->
  Forall (fun f : GameFruit => in_catalog f) (G.fruits (update canvas g)).
Proof.
  intros Hall. unfold update. apply outerLoop_in_catalog. simpl.
  apply Forall_fmap. eapply Forall_impl; [exact Hall|].
  intros f Hf. simpl. now rewrite moveFruit_queued.
Qed.

Lemma prepareNextFruit_Some canvas fuel r g g' :
  prepareNextFruit canvas fuel r g = Some g' ->
  exists x1 : R,
    g' = G.set_fruitToLaunch
           (Some (mkGameFruit (G.fruitInQueue g) x1 (height canvas - 50) 0 0 0))
           (G.set_fruitInQueue (generateRandomFruit r) g).
Proof.
  unfold prepareNextFruit.
  match goal with |- context [mbind _ ?m] => destruct m as [x1|] end;
    simpl; [|discriminate].
  intros [= <-]. now exists x1.
Qed.

Lemma prepareNextFruit_catalog canvas fuel r g g' :
  0 <= r < 1 ->
  Forall (fun f : GameFruit => in_catalog f) (G.fruits g) ->
  spawnable (G.fruitInQueue g) ->
  prepareNextFruit canvas fuel r g = Some g' -> catalog_inv g'.
Proof.
  intros Hr Hfs Hq Hprep.
  apply prepareNextFruit_Some in Hprep as [x1 ->].
  split; [exact Hfs|]. split.
  - simpl. intros p [= <-]. exact Hq.
  - now apply generateRandomFruit_spawnable.
Qed.

Lemma mousedown_catalog g : catalog_inv g -> catalog_inv (mousedown g).
Proof.
  intros Hinv. pose proof Hinv as (Hfs & Hp & Hq). unfold mousedown.
  destruct (G.fruitToLaunch g) as [p|] eqn:Ep; [|exact Hinv].
  split; [|split; [discriminate | exact Hq]].
  simpl. apply Forall_app. split; [exact Hfs|].
  constructor; [|constructor]. simpl.
  apply spawnable_in_catalog. now apply Hp.
Qed.

Lemma drawFillGauge_keeps canvas g :
  G.fruits (drawFillGauge canvas g) = G.fruits g
  /\ G.fruitToLaunch (drawFillGauge canvas g) = G.fruitToLaunch g
  /\ G.fruitInQueue (drawFillGauge canvas g) = G.fruitInQueue g
  /\ G.updates (drawFillGauge canvas g) = G.updates g.
Proof.
  unfold drawFillGauge.
  destruct (bool_decide _ && negb _); repeat split.
Qed.

Lemma gameLoop_catalog canvas g : catalog_inv g -> catalog_inv (gameLoop canvas g).
Proof.
  intros Hinv. pose proof Hinv as (Hfs & Hp & Hq). unfold gameLoop.
  destruct (G.gameOver g); [exact Hinv|].
  unfold draw, catalog_inv. simpl.
  destruct (drawFillGauge_keeps canvas
              (G.set_updates (S (G.updates g)) (update canvas g)))
    as (-> & -> & -> & _).
  destruct (update_keeps canvas g) as (_ & Hp' & Hq' & _).
  simpl. rewrite Hp', Hq'.
  split; [now apply update_in_catalog | now split].
Qed.

Lemma init_catalog canvas fuel r1 r2 g g' :
  0 <= r1 < 1 -> 0 <= r2 < 1 ->
  init canvas fuel r1 r2 g = Some g' -> catalog_inv g'.
Proof.
  intros Hr1 Hr2. unfold init.
  destruct (prepareNextFruit canvas fuel r2 _) as [g3|] eqn:Eprep;
    simpl; [|discriminate].
  intros [= <-]. apply gameLoop_catalog.
  eapply prepareNextFruit_catalog; [exact Hr2| | |exact Eprep].
  - constructor.
  - now apply generateRandomFruit_spawnable.
Qed.

Lemma step_catalog canvas g e g' :
  step canvas g e g' -> catalog_inv g -> catalog_inv g'.
Proof.
  intros Hstep Hinv.
  destruct Hstep as [g p | g | g r fuel g' Ht Hr Hprep | g Hf
                    | g r1 r2 fuel g' Hr1 Hr2 Hinit].
  - exact Hinv.
  - now apply mousedown_catalog.
  - destruct Hinv as (Hfs & _ & Hq).
    eapply prepareNextFruit_catalog; [exact Hr| | |exact Hprep];
      [exact Hfs | exact Hq].
  - apply gameLoop_catalog. exact Hinv.
  - exact (init_catalog canvas fuel r1 r2 g g' Hr1 Hr2 Hinit).
Qed.

Lemma reachable_catalog canvas g : reachable canvas g -> catalog_inv g.
Proof.
  induction 1 as [fuel r1 r2 g Hr1 Hr2 Hinit | g e g' _ IH Hstep].
  - exact (init_catalog canvas fuel r1 r2 boot g Hr1 Hr2 Hinit).
  - exact (step_catalog canvas g e g' Hstep IH).
Qed.

(** C10.  In every state reached from the start of the script through
    restarts, spawns, launches and animation frames, every active fruit
    has a type index between 0 and 10, the last index of the catalog; the
    fruit waiting to be launched and the queued fruit have an index
    between 0 and 4. *)
Theorem reachable_type_index (canvas : Canvas) (g : G.t) :
  reachable canvas g ->
  (length fruitTypes - 1 = 10)%nat
  /\ Forall (fun f : GameFruit =>
               (0 <= typeIndex f <= length fruitTypes - 1)%nat)
            (G.fruits g)
  /\ (forall p : GameFruit,
        G.fruitToLaunch g = Some p -> (0 <= typeIndex p <= 4)%nat)
  /\ (0 <= typeIndex (G.fruitInQueue g) <= 4)%nat.
Proof.
  intros Hreach. apply reachable_catalog in Hreach as (Hfs & Hp & Hq).
  split; [reflexivity|]. split; [|split].
  - eapply Forall_impl; [exact Hfs|].
    intros f [Hle _]. simpl in *. lia.
  - intros p Ep. destruct (Hp p Ep) as [Hle _]. lia.
  - destruct Hq as [Hle _]. lia.
Qed.

Lemma reachable_type_index_witness :
  exists g : G.t,
    reachable field g
    /\ Forall (fun f : GameFruit =>
                 (0 <= typeIndex f <= length fruitTypes - 1)%nat)
              (G.fruits g).
Proof.
  assert (H0 : exists g, init field 1 0 0 boot = Some g)
    by (eexists; reflexivity).
  destruct H0 as (g0 & H0).
  assert (Hr : reachable field (mousedown g0)).
  { eapply reachable_step; [|apply step_mousedown].
    apply (reachable_init field 1 0 0); [lra | lra | exact H0]. }
  exists (mousedown g0). split; [exact Hr|].
  apply (reachable_type_index field _ Hr).
Defined.

(** ** Game over *)

Lemma gameLoop_over canvas g : G.gameOver g = true -> gameLoop canvas g = g.
Proof. intros Hover. unfold gameLoop. now rewrite Hover. Qed.

Lemma drawFillGauge_fires canvas g :
  G.gameOver g = false -> calculateFillPercentage canvas g >= 90 ->
  drawFillGauge canvas g
  = G.set_gameOvers (S (G.gameOvers g)) (G.set_gameOver true g).
Proof.
  intros Hover Hfill. unfold drawFillGauge.
  rewrite bool_decide_eq_true_2 by exact Hfill. now rewrite Hover.
Qed.

Lemma drawFillGauge_cases canvas g :
  drawFillGauge canvas g = g
  \/ (G.gameOver g = false
      /\ drawFillGauge canvas g
         = G.set_gameOvers (S (G.gameOvers g)) (G.set_gameOver true g)).
Proof.
  unfold drawFillGauge.
  destruct (bool_decide _); simpl; [|now left].
  destruct (G.gameOver g); simpl; [now left | now right].
Qed.

(** What one callback other than a restart does to the game-over flag and
    to the two counters. *)
Lemma step_game_over canvas g e g' :
  step canvas g e g' -> is_restart e = false ->
  (G.gameOver g = true ->
     G.gameOver g' = true /\ G.updates g' = G.updates g
     /\ G.gameOvers g' = G.gameOvers g)
  /\ (G.gameOvers g' = G.gameOvers g
      \/ (G.gameOver g = false /\ G.gameOver g' = true
          /\ G.gameOvers g' = S (G.gameOvers g))).
Proof.
  intros Hstep Hnr.
  destruct Hstep as [g p | g | g r fuel g' Ht Hr Hprep | g Hf
                    | g r1 r2 fuel g' Hr1 Hr2 Hinit].
  - split; [intros Hover; now repeat split | now left].
  - unfold mousedown.
    destruct (G.fruitToLaunch g);
      (split; [intros Hover; now repeat split | now left]).
  - apply prepareNextFruit_Some in Hprep as [x1 ->].
    split; [intros Hover; now repeat split | now left].
  - destruct (G.gameOver g) eqn:Hover.
    + rewrite gameLoop_over by exact Hover.
      split; [intros _; now repeat split | now left].
    + split; [discriminate|].
      unfold gameLoop. cbn [G.gameOver G.set_frames]. rewrite Hover.
      cbn [G.gameOver G.gameOvers G.set_frames]. unfold draw.
      destruct (update_keeps canvas (G.set_frames (Init.Nat.pred (G.frames g)) g))
        as (Hgo & _ & _ & _ & Hgos & _).
      match goal with |- context [drawFillGauge canvas ?h] =>
        destruct (drawFillGauge_cases canvas h) as [-> | [_ ->]] end.
      * left. simpl. exact Hgos.
      * right. simpl. rewrite Hgos. auto.
  - discriminate.
Qed.

Lemma run_game_over canvas g es g' :
  run canvas g es g' -> Forall (fun e => is_restart e = false) es ->
  (G.gameOver g = true ->
     G.gameOver g' = true /\ G.updates g' = G.updates g
     /\ G.gameOvers g' = G.gameOvers g)
  /\ (G.gameOvers g' = G.gameOvers g
      \/ (G.gameOver g = false /\ G.gameOver g' = true
          /\ G.gameOvers g' = S (G.gameOvers g))).
Proof.
  induction 1 as [g | g e g1 es g' Hstep Hrun IH]; intros Hnr.
  - split; [now intros | now left].
  - inversion Hnr as [|? ? He Hes]; subst.
    destruct (step_game_over canvas g e g1 Hstep He) as [Hlatch Hfire].
    destruct (IH Hes) as [IHlatch IHfire].
    split.
    + intros Hover. destruct (Hlatch Hover) as (Ho1 & Hu1 & Hc1).
      destruct (IHlatch Ho1) as (Ho & Hu & Hc).
      repeat split; congruence.
    + destruct Hfire as [Hsame | (Hf & Ho1 & Hc1)].
      * destruct IHfire as [Hsame' | (Hf1 & Ho & Hc)].
        -- left. congruence.
        -- right. destruct (G.gameOver g) eqn:Hover.
           ++ destruct (Hlatch eq_refl) as (Ho1 & _). congruence.
           ++ repeat split; congruence.
      * destruct (IHlatch Ho1) as (Ho & _ & Hc).
        right. repeat split; congruence.
Qed.

(** C2.  A frame ([gameLoop]) entered with [gameOver] false whose fill
    percentage, computed after the update of that frame, is at least 90
    sets [gameOver] (and runs the game-over branch once, after the one
    [update] of that frame).  Along any sequence of callbacks without a
    restart the game-over branch runs at most once; and from a state with
    [gameOver] set, [gameOver] stays set, the branch does not run again and
    [update] is not called again. *)
Theorem game_over_latch (canvas : Canvas) :
  (forall g : G.t,
     G.gameOver g = false ->
     calculateFillPercentage canvas (update canvas g) >= 90 ->
     G.gameOver (gameLoop canvas g) = true
     /\ G.gameOvers (gameLoop canvas g) = S (G.gameOvers g)
     /\ G.updates (gameLoop canvas g) = S (G.updates g))
  /\ (forall (g : G.t) (es : list Event) (g' : G.t),
        run canvas g es g' ->
        Forall (fun e => is_restart e = false) es ->
        (G.gameOvers g' <= S (G.gameOvers g))%nat
        /\ (G.gameOver g = true ->
              G.gameOver g' = true
              /\ G.updates g' = G.updates g
              /\ G.gameOvers g' = G.gameOvers g)).
Proof.
  split.
  - intros g Hover Hfill. unfold gameLoop, draw. rewrite Hover.
    destruct (update_keeps canvas g) as (Hgo & _ & _ & Hup & Hgos & _).
    rewrite drawFillGauge_fires.
    + simpl. now rewrite Hgos.
    + simpl. now rewrite Hgo.
    + exact Hfill.
  - intros g es g' Hrun Hnr.
    destruct (run_game_over canvas g es g' Hrun Hnr) as [Hlatch Hfire].
    split; [|exact Hlatch].
    destruct Hfire as [-> | (_ & _ & ->)]; lia.
Qed.

Lemma game_over_latch_witness :
  let small := mkCanvas 100 100 in
  let g := world [fruitAt 10 50 50 0 0] None in
  let g1 := gameLoop small g in
  G.gameOver g1 = true
  /\ exists g2 : G.t,
       run small g1 [AnimationFrame; MouseDown] g2
       /\ G.gameOver g2 = true /\ G.updates g2 = 1%nat.
Proof.
  intros small g g1.
  destruct (game_over_latch small) as [Hfire Hlatch].
  assert (Hfill : calculateFillPercentage small (update small g) >= 90).
  { rewrite fill_is_occupancy.
    rewrite (update_single small g (fruitAt 10 50 50 0 0)) by reflexivity.
    unfold occupancy_spec. simpl. rewrite moveFruit_radius. simpl.
    pose proof PI2_3_2. apply Rle_ge, Rmin_glb; lra. }
  destruct (Hfire g eq_refl Hfill) as (Hover & _ & Hups). fold g1 in Hover, Hups.
  split; [exact Hover|].
  assert (Hrun : run small g1 [AnimationFrame; MouseDown]
                   (mousedown (gameLoop small
                      (G.set_frames (Init.Nat.pred (G.frames g1)) g1)))).
  { eapply run_cons; [apply step_frame; unfold g1, gameLoop; simpl; lia|].
    eapply run_cons; [apply step_mousedown | apply run_nil]. }
  eexists. split; [exact Hrun|].
  destruct (Hlatch _ _ _ Hrun) as (_ & Hkeep).
  - repeat constructor.
  - destruct (Hkeep Hover) as (Ho & Hu & _).
    split; [exact Ho | now rewrite Hu, Hups].
Defined.

(** ** Spawn placement *)

Section Spawn.

Variable canvas : Canvas.
Variable g : G.t.
Variables x0 y0 radius0 : R.

(** More fuel does not change the result of the search. *)
Lemma searchLoop_more_fuel fuel :
  forall (off xr : R),
    searchLoop canvas fuel g x0 y0 radius0 off = Some xr ->
    forall fuel', (fuel <= fuel')%nat ->
      searchLoop canvas fuel' g x0 y0 radius0 off = Some xr.
Proof.
  induction fuel as [|fuel IH]; intros off xr Hrun fuel' Hle;
    [discriminate|].
  destruct fuel' as [|fuel']; [lia|].
  simpl in *.
  destruct (_ && _); [exact Hrun|].
  destruct (_ && _); [exact Hrun|].
  destruct (_ && _); [exact Hrun|].
  apply (IH _ _ Hrun). lia.
Qed.

(** Once the next offset is past both walls the loop has left: [S n]
    passes are enough when the offset after [S n] increments is. *)
Lemma searchLoop_exits n :
  forall off : R,
    x0 - (off + 5 * INR (S n)) < 0 ->
    x0 + (off + 5 * INR (S n)) > width canvas ->
    exists xr : R, searchLoop canvas (S n) g x0 y0 radius0 off = Some xr.
Proof.
  induction n as [|n IH]; intros off Hleft Hright.
  - simpl in *.
    destruct (_ && _); [eauto|].
    destruct (_ && _); [eauto|].
    rewrite !bool_decide_eq_true_2 by lra. simpl. eauto.
  - rewrite S_INR in Hleft, Hright.
    change (searchLoop canvas (S (S n)) g x0 y0 radius0 off)
      with (let rightX := x0 + off in
            if bool_decide (rightX + radius0 < width canvas)
               && negb (isOverlapping g rightX y0 radius0)
            then Some rightX
            else
              let leftX := x0 - off in
              if bool_decide (leftX - radius0 > 0)
                 && negb (isOverlapping g leftX y0 radius0)
              then Some leftX
              else
                if bool_decide (x0 - (off + 5) < 0)
                   && bool_decide (x0 + (off + 5) > width canvas)
                then Some x0
                else searchLoop canvas (S n) g x0 y0 radius0 (off + 5)).
    cbv zeta.
    destruct (_ && _); [eauto|].
    destruct (_ && _); [eauto|].
    destruct (_ && _); [eauto|].
    apply IH; lra.
Qed.

End Spawn.

Lemma nat_above (a : R) : exists n : nat, a < INR n.
Proof.
  destruct (archimed a) as [Hup _].
  exists (Z.to_nat (up a)).
  destruct (Z.le_gt_cases 0 (up a)) as [Hpos|Hneg].
  - rewrite INR_IZR_INZ, Z2Nat.id by exact Hpos. lra.
  - apply IZR_lt in Hneg. pose proof (pos_INR (Z.to_nat (up a))). lra.
Qed.

(** The search loop returns, whatever the canvas and the active fruits. *)
Lemma searchLoop_terminates canvas g x0 y0 radius0 off :
  0 <= off ->
  exists (n : nat) (xr : R),
    forall fuel, (n <= fuel)%nat ->
      searchLoop canvas fuel g x0 y0 radius0 off = Some xr.
Proof.
  intros Hoff.
  destruct (nat_above (Rmax x0 (width canvas - x0))) as [n Hn].
  pose proof (Rmax_l x0 (width canvas - x0)).
  pose proof (Rmax_r x0 (width canvas - x0)).
  pose proof (pos_INR n).
  destruct (searchLoop_exits canvas g x0 y0 radius0 n off) as [xr Hxr].
  - rewrite S_INR. lra.
  - rewrite S_INR. lra.
  - exists (S n), xr. intros fuel Hfuel.
    now apply (searchLoop_more_fuel canvas g x0 y0 radius0 (S n)).
Qed.

Lemma prepareNextFruit_terminates canvas r g :
  exists (n : nat) (g' : G.t),
    forall fuel, (n <= fuel)%nat ->
      prepareNextFruit canvas fuel r g = Some g'.
Proof.
  unfold prepareNextFruit.
  destruct (isOverlapping _ _ _ _).
  - match goal with |- context [searchLoop canvas _ ?h ?a ?b ?c 5] =>
      destruct (searchLoop_terminates canvas h a b c 5) as (n & xr & Hn) end;
      [lra|].
    exists n. eexists. intros fuel Hfuel. rewrite (Hn fuel Hfuel).
    simpl. reflexivity.
  - exists 0%nat. eexists. intros fuel _. simpl. reflexivity.
Qed.

(** C9.  The placement search terminates for every canvas width and every
    list of active fruits: the offset grows by 5 at each pass, so after
    finitely many passes a candidate is accepted or the offset is past both
    walls and the loop leaves through the fallback.  Hence
    [prepareNextFruit] returns. *)
Theorem spawn_search_terminates (canvas : Canvas) (g : G.t) (r : R) :
  (forall n : nat,
     width canvas / 2 < 5 + 5 * INR (S n) ->
     exists xr : R,
       forall fuel, (S n <= fuel)%nat ->
         searchLoop canvas fuel g (width canvas / 2) (height canvas - 50)
           (radius (G.fruitInQueue g)) 5 = Some xr)
  /\ (exists n : nat, width canvas / 2 < 5 + 5 * INR (S n))
  /\ (exists (n : nat) (g' : G.t),
        forall fuel, (n <= fuel)%nat ->
          prepareNextFruit canvas fuel r g = Some g').
Proof.
  split; [|split].
  - intros n Hn.
    destruct (searchLoop_exits canvas g (width canvas / 2) (height canvas - 50)
                (radius (G.fruitInQueue g)) n 5) as [xr Hxr]; [lra | lra |].
    exists xr. intros fuel Hfuel.
    now apply (searchLoop_more_fuel canvas g _ _ _ (S n)).
  - destruct (nat_above (width canvas / 2)) as [n Hn].
    exists n. rewrite S_INR. pose proof (pos_INR n). lra.
  - apply prepareNextFruit_terminates.
Qed.

Section Placement.

Variable canvas : Canvas.
Variable g : G.t.
Variables y0 radius0 c : R.

Lemma right_test_free (off : R) :
  c = width canvas / 2 -> 0 < off ->
  bool_decide (c + off + radius0 < width canvas)
  && negb (isOverlapping g (c + off) y0 radius0) = true
  <-> free_slot canvas g y0 radius0 (c + off).
Proof.
  intros Hc Hoff. unfold free_slot, inside.
  rewrite andb_true_iff, bool_decide_eq_true, negb_true_iff.
  split; intros [Hin Hov]; (split; [|exact Hov]).
  - split; lra.
  - tauto.
Qed.

Lemma left_test_free (off : R) :
  c = width canvas / 2 -> 0 < off ->
  bool_decide (c - off - radius0 > 0)
  && negb (isOverlapping g (c - off) y0 radius0) = true
  <-> free_slot canvas g y0 radius0 (c - off).
Proof.
  intros Hc Hoff. unfold free_slot, inside.
  rewrite andb_true_iff, bool_decide_eq_true, negb_true_iff.
  split; intros [Hin Hov]; (split; [|exact Hov]).
  - split; lra.
  - destruct Hin. lra.
Qed.

(** Past the walls no candidate is inside the bounds. *)
Lemma no_slot_beyond (off : R) :
  c = width canvas / 2 -> 0 <= radius0 -> c - off < 0 ->
  ~ free_slot canvas g y0 radius0 (c + off)
  /\ ~ free_slot canvas g y0 radius0 (c - off).
Proof.
  intros Hc Hr Hoff. unfold free_slot, inside.
  split; intros [[Hl Hr'] _]; lra.
Qed.

(** The loop invariant: entered at offset [5 k] with no free candidate
    at a smaller offset, the loop returns the first free candidate, or the
    centre when there is none. *)
Lemma searchLoop_first_free (fuel : nat) :
  forall (k : nat) (xx : R),
    c = width canvas / 2 -> (1 <= k)%nat -> 0 <= radius0 ->
    none_free_before canvas g y0 radius0 c k ->
    searchLoop canvas fuel g c y0 radius0 (5 * INR k) = Some xx ->
    first_free canvas g y0 radius0 c xx.
Proof.
  induction fuel as [|fuel IH]; intros k xx Hc Hk Hr Hnone Hrun;
    [discriminate|].
  assert (Hoff : 0 < 5 * INR k).
  { assert (INR 1 <= INR k) by (apply le_INR; lia). simpl in *. lra. }
  simpl in Hrun.
  destruct (bool_decide (c + 5 * INR k + radius0 < width canvas)
            && negb (isOverlapping g (c + 5 * INR k) y0 radius0)) eqn:Eright.
  { injection Hrun as <-. left. exists k.
    split; [exact Hk|]. split; [reflexivity|].
    split; [|exact Hnone]. now apply right_test_free. }
  assert (Hnr : ~ free_slot canvas g y0 radius0 (c + 5 * INR k)).
  { intros Hfree. apply right_test_free in Hfree; [congruence | exact Hc | exact Hoff]. }
  destruct (bool_decide (c - 5 * INR k - radius0 > 0)
            && negb (isOverlapping g (c - 5 * INR k) y0 radius0)) eqn:Eleft.
  { injection Hrun as <-. right. left. exists k.
    split; [exact Hk|]. split; [reflexivity|].
    split; [now apply left_test_free|]. split; [exact Hnr | exact Hnone]. }
  assert (Hnl : ~ free_slot canvas g y0 radius0 (c - 5 * INR k)).
  { intros Hfree. apply left_test_free in Hfree; [congruence | exact Hc | exact Hoff]. }
  assert (Hnone' : none_free_before canvas g y0 radius0 c (S k)).
  { intros k' Hk'. destruct (decide (k' = k)) as [->|Hne]; [now split|].
    apply Hnone. lia. }
  destruct (bool_decide (c - (5 * INR k + 5) < 0)
            && bool_decide (c + (5 * INR k + 5) > width canvas)) eqn:Eout.
  - injection Hrun as <-. right. right. split; [reflexivity|].
    intros k' Hk'.
    destruct (decide (k' < S k)%nat) as [Hlt|Hge]; [now apply Hnone'|].
    apply andb_true_iff in Eout as [Eout _].
    apply bool_decide_eq_true_1 in Eout.
    apply no_slot_beyond; [exact Hc | exact Hr|].
    assert (INR (S k) <= INR k') by (apply le_INR; lia).
    rewrite S_INR in *. lra.
  - replace (5 * INR k + 5) with (5 * INR (S k)) in Hrun
      by (rewrite S_INR; ring).
    apply (IH (S k)); [exact Hc | lia | exact Hr | exact Hnone' | exact Hrun].
Qed.

End Placement.

(** The search reads the globals through [fruits] only. *)
Lemma searchLoop_fruits canvas (g h : G.t) x0 y0 radius0 fuel :
  G.fruits g = G.fruits h ->
  forall off,
    searchLoop canvas fuel g x0 y0 radius0 off
    = searchLoop canvas fuel h x0 y0 radius0 off.
Proof.
  intros Hfs. induction fuel as [|fuel IH]; intros off; [reflexivity|].
  simpl. unfold isOverlapping. rewrite Hfs, IH. reflexivity.
Qed.

(** [isOverlapping]: some active fruit has its centre closer than the sum
    of the radii. *)
Lemma isOverlapping_spec (g : G.t) (cx cy radius0 : R) :
  isOverlapping g cx cy radius0 = true
  <-> exists f : GameFruit,
        f ∈ G.fruits g
        /\ sqrt ((cx - x f) * (cx - x f) + (cy - y f) * (cy - y f))
            < radius0 + radius f.
Proof.
  unfold isOverlapping. rewrite existsb_exists. split.
  - intros (f & Hin & Hlt). exists f.
    apply list_elem_of_In in Hin. apply bool_decide_eq_true_1 in Hlt. auto.
  - intros (f & Hin & Hlt). exists f.
    apply list_elem_of_In in Hin. split; [exact Hin|].
    now apply bool_decide_eq_true_2.
Qed.

(** Where [prepareNextFruit] puts the fruit. *)
Lemma prepareNextFruit_places (canvas : Canvas) (g : G.t) (r : R) :
  0 <= radius (G.fruitInQueue g) ->
  let c := width canvas / 2 in
  let y0 := height canvas - 50 in
  let radius0 := radius (G.fruitInQueue g) in
  exists (n : nat) (g' : G.t) (x1 : R),
    (forall fuel, (n <= fuel)%nat ->
       prepareNextFruit canvas fuel r g = Some g')
    /\ g' = G.set_fruitToLaunch
              (Some (mkGameFruit (G.fruitInQueue g) x1 y0 0 0 0))
              (G.set_fruitInQueue (generateRandomFruit r) g)
    /\ (isOverlapping g c y0 radius0 = false -> x1 = c)
    /\ (isOverlapping g c y0 radius0 = true ->
          first_free canvas g y0 radius0 c x1).
Proof.
  intros Hrad c y0 radius0.
  destruct (prepareNextFruit_terminates canvas r g) as (n & g' & Hn).
  pose proof (Hn n (Nat.le_refl n)) as Hrun.
  destruct (prepareNextFruit_Some canvas n r g g' Hrun) as [x1 Hg'].
  exists n, g', x1.
  split; [exact Hn|]. split; [exact Hg'|].
  unfold prepareNextFruit in Hrun. fold c y0 radius0 in Hrun.
  change (isOverlapping (G.set_fruitInQueue (generateRandomFruit r) g)
            c y0 radius0)
    with (isOverlapping g c y0 radius0) in Hrun.
  rewrite Hg' in Hrun.
  destruct (isOverlapping g c y0 radius0) eqn:Eov.
  - split; [discriminate|]. intros _.
    destruct (searchLoop canvas n _ c y0 radius0 5) as [x2|] eqn:Esearch;
      simpl in Hrun; [|discriminate].
    assert (x2 = x1) as ->.
    { injection Hrun. intros. assumption. }
    replace 5 with (5 * INR 1) in Esearch by (simpl; ring).
    rewrite (searchLoop_fruits canvas _ g) in Esearch by reflexivity.
    apply (searchLoop_first_free canvas g y0 radius0 c n 1 x1);
      [reflexivity | lia | exact Hrad | intros k' Hk'; lia | exact Esearch].
  - split; [|discriminate]. intros _.
    simpl in Hrun. injection Hrun. intros. symmetry. assumption.
Qed.

(** C4.  [prepareNextFruit] returns, and the fruit it leaves in
    [fruitToLaunch] is the queued fruit at [y = height - 50], with zero
    velocity and zero angle.  Its abscissa is the centre [width / 2] when
    the centred circle overlaps no active fruit (an overlap is a distance of
    the centres strictly below the sum of the radii); otherwise it is the
    first free candidate among [c + 5], [c - 5], [c + 10], [c - 10], ... (a
    candidate is free when its circle is strictly inside the horizontal
    bounds and overlaps no active fruit), and the centre when no candidate
    is free.  The queued fruit has a radius that is not negative, as all
    catalog entries have. *)
Theorem prepareNextFruit_placement (canvas : Canvas) (g : G.t) (r : R) :
  0 <= radius (G.fruitInQueue g) ->
  let c := width canvas / 2 in
  let y0 := height canvas - 50 in
  let radius0 := radius (G.fruitInQueue g) in
  exists (n : nat) (g' : G.t) (p : GameFruit),
    (forall fuel, (n <= fuel)%nat ->
       prepareNextFruit canvas fuel r g = Some g')
    /\ G.fruitToLaunch g' = Some p
    /\ G.fruits g' = G.fruits g
    /\ queued p = G.fruitInQueue g
    /\ y p = y0 /\ vx p = 0 /\ vy p = 0 /\ angle p = 0
    /\ (isOverlapping g c y0 radius0 = false -> x p = c)
    /\ (isOverlapping g c y0 radius0 = true ->
          first_free canvas g y0 radius0 c (x p))
    /\ (forall cx : R,
          isOverlapping g cx y0 radius0 = true
          <-> exists f : GameFruit,
                f ∈ G.fruits g
                /\ sqrt ((cx - x f) * (cx - x f) + (y0 - y f) * (y0 - y f))
                    < radius0 + radius f).
Proof.
  intros Hrad c y0 radius0.
  destruct (prepareNextFruit_places canvas g r Hrad)
    as (n & g' & x1 & Hn & Hg' & Hcentre & Hsearch).
  exists n, g', (mkGameFruit (G.fruitInQueue g) x1 y0 0 0 0).
  split; [exact Hn|]. rewrite Hg'. simpl.
  do 7 (split; [reflexivity|]).
  split; [exact Hcentre|]. split; [exact Hsearch|].
  intros cx. apply isOverlapping_spec.
Qed.

Lemma prepareNextFruit_placement_witness :
  let g := world [fruitAt 0 200 550 0 0] None in
  exists (n : nat) (g' : G.t) (p : GameFruit),
    (forall fuel, (n <= fuel)%nat -> prepareNextFruit field fuel 0 g = Some g')
    /\ G.fruitToLaunch g' = Some p
    /\ y p = 550
    /\ first_free field g 550 15 200 (x p).
Proof.
  intros g.
  destruct (prepareNextFruit_placement field g 0)
    as (n & g' & p & Hn & Hp & _ & _ & Hy & _ & _ & _ & _ & Hfirst & _).
  - simpl. lra.
  - exists n, g', p. split; [exact Hn|]. split; [exact Hp|].
    simpl in Hy, Hfirst.
    replace (400 / 2) with 200 in Hfirst by lra.
    replace (600 - 50) with 550 in Hfirst, Hy by lra.
    split; [exact Hy|]. apply Hfirst.
    unfold isOverlapping. simpl. rewrite orb_false_r.
    apply bool_decide_eq_true_2.
    replace ((200 - 200) * (200 - 200) + (550 - 550) * (550 - 550))
      with 0 by ring.
    rewrite sqrt_0. lra.
Defined.

(** The scenario of the specification: the centre of the spawn line is
    taken by a cherry and the queued fruit is a cherry.  The offsets 5 to
    25 overlap on both sides; at offset 30 the circles touch without
    overlapping and the right candidate is taken. *)
Lemma spawn_next_to_cherry :
  let g := world [fruitAt 0 200 550 0 0] None in
  forall fuel, (6 <= fuel)%nat ->
    exists (g' : G.t) (p : GameFruit),
      prepareNextFruit field fuel 0 g = Some g'
      /\ G.fruitToLaunch g' = Some p
      /\ x p = 230 /\ y p = 550.
Proof.
  intros g fuel Hfuel.
  assert (Hov : forall h cx, G.fruits h = G.fruits g ->
            isOverlapping h cx (600 - 50) 15
            = bool_decide (Rabs (cx - 200) < 30)).
  { intros h cx Hh. unfold isOverlapping. rewrite Hh. simpl.
    rewrite orb_false_r.
    replace ((cx - 200) * (cx - 200) + (600 - 50 - 550) * (600 - 50 - 550))
      with (Rsqr (cx - 200)) by (unfold Rsqr; ring).
    rewrite sqrt_Rsqr_abs.
    apply bool_decide_ext. lra. }
  assert (Hin : forall d, Rabs d < 30 <-> -30 < d < 30).
  { intros d. unfold Rabs. destruct (Rcase_abs d); lra. }
  assert (Hsearch :
    searchLoop field 6 (G.set_fruitInQueue (generateRandomFruit 0) g)
      (400 / 2) (600 - 50) 15 5 = Some (400 / 2 + (5 + 5 + 5 + 5 + 5 + 5))).
  { simpl. rewrite !Hov by reflexivity.
    repeat first
      [ rewrite (bool_decide_eq_true_2 (Rabs _ < 30)) by (apply Hin; lra)
      | rewrite (bool_decide_eq_false_2 (Rabs _ < 30))
          by (rewrite Hin; lra) ].
    simpl. rewrite !andb_false_r.
    repeat first
      [ rewrite (bool_decide_eq_false_2 (_ - _ < 0)) by lra
      | rewrite (bool_decide_eq_true_2 (_ + _ < 400)) by lra ].
    simpl. reflexivity. }
  apply (searchLoop_more_fuel field _ _ _ _ 6) with (fuel' := fuel)
    in Hsearch; [|exact Hfuel].
  unfold prepareNextFruit. simpl.
  rewrite Hov by reflexivity.
  rewrite bool_decide_eq_true_2 by (apply Hin; lra).
  rewrite Hsearch. simpl.
  do 2 eexists. split; [reflexivity|]. split; [reflexivity|].
  simpl. split; lra.
Qed.

(** A whole step on two active fruits of one type that overlap once they
    have moved: one fruit of the next type is left, and its score is
    added. *)
Lemma update_merges_two (canvas : Canvas) (g : G.t) (a b : GameFruit) :
  G.fruits g = [a; b] ->
  colliding (moveFruit canvas a) (moveFruit canvas b) ->
  typeIndex a = typeIndex b -> (typeIndex a < 10)%nat ->
  exists m : GameFruit,
    G.fruits (update canvas g) = [m]
    /\ typeIndex m = (typeIndex a + 1)%nat
    /\ fruitType m = fruitTypes_at (typeIndex a + 1)
    /\ G.score (update canvas g)
       = (G.score g + score (fruitTypes_at (typeIndex a + 1)))%Z.
Proof.
  intros Hg Hc Hty Hlt.
  rewrite (update_pair canvas g a b Hg).
  rewrite (collide_merge 0 1 _ (moveFruit canvas a) (moveFruit canvas b));
    try reflexivity; try assumption.
  - eexists. split; [reflexivity|]. simpl.
    rewrite moveFruit_queued. repeat split.
  - now rewrite !moveFruit_queued.
  - now rewrite moveFruit_queued.
Qed.

(* ===================================================================== *)
(** * Further properties of the script *)
(* ===================================================================== *)

(** ** Directions: [atan2] with [cos] and [sin] *)

Lemma hypot_factor (dx dy : R) :
  dx <> 0 ->
  sqrt (dx * dx + dy * dy) = Rabs dx * sqrt (1 + Rsqr (dy / dx)).
Proof.
  intros Hdx. rewrite <- sqrt_Rsqr_abs, <- sqrt_mult.
  - f_equal. unfold Rsqr. field. exact Hdx.
  - apply Rle_0_sqr.
  - pose proof (Rle_0_sqr (dy / dx)). lra.
Qed.

Lemma sqrt_one_plus_sqr_pos (t : R) : 0 < sqrt (1 + Rsqr t).
Proof. apply sqrt_lt_R0. pose proof (Rle_0_sqr t). lra. Qed.

Lemma cos_minus_PI (a : R) : cos (a - PI) = - cos a.
Proof. rewrite cos_minus, cos_PI, sin_PI. ring. Qed.

Lemma sin_minus_PI (a : R) : sin (a - PI) = - sin a.
Proof. rewrite sin_minus, cos_PI, sin_PI. ring. Qed.

(** The direction computed by the source is the direction of [(dx, dy)]:
    scaled by the length of the vector, it gives the vector back. *)
Lemma atan2_polar (dx dy : R) :
  cos (atan2 dy dx) * sqrt (dx * dx + dy * dy) = dx
  /\ sin (atan2 dy dx) * sqrt (dx * dx + dy * dy) = dy.
Proof.
  unfold atan2.
  destruct (decide (0 < dx)) as [Hpos|Hnpos].
  - rewrite cos_atan, sin_atan, hypot_factor by lra.
    rewrite Rabs_pos_eq by lra.
    pose proof (sqrt_one_plus_sqr_pos (dy / dx)).
    split; field; repeat split; lra.
  - destruct (decide (dx < 0)) as [Hneg|Hnneg].
    + pose proof (sqrt_one_plus_sqr_pos (dy / dx)).
      rewrite (hypot_factor dx dy) by lra.
      rewrite Rabs_left by exact Hneg.
      destruct (decide (dy < 0)).
      * rewrite cos_minus_PI, sin_minus_PI, cos_atan, sin_atan.
        split; field; repeat split; lra.
      * rewrite neg_cos, neg_sin, cos_atan, sin_atan.
        split; field; repeat split; lra.
    + assert (dx = 0) as -> by lra.
      replace (0 * 0 + dy * dy) with (dy * dy) by ring.
      destruct (decide (0 < dy)) as [Hup|Hnup].
      * rewrite cos_PI2, sin_PI2, sqrt_square by lra. split; ring.
      * destruct (decide (dy < 0)) as [Hdown|Hndown].
        -- replace (- PI / 2) with (- (PI / 2)) by (unfold Rdiv; ring).
           rewrite cos_neg, sin_neg, cos_PI2, sin_PI2.
           replace (dy * dy) with ((- dy) * (- dy)) by ring.
           rewrite sqrt_square by lra. split; ring.
        -- assert (dy = 0) as -> by lra.
           rewrite cos_0, sin_0. replace (0 * 0) with 0 by ring.
           rewrite sqrt_0. split; ring.
Qed.

(** ** The response to a collision *)

(** X2.  The velocity response, with the radii as masses: on each axis
    the momentum after the response is 0.95 times the momentum before, the
    relative velocity is reversed and scaled by 0.95, and the kinetic
    energy is scaled by [0.95^2]. *)
Theorem bounce_momentum (f1 f2 : GameFruit) :
  radius f1 + radius f2 <> 0 ->
  let f1' := fst (bounce f1 f2) in
  let f2' := snd (bounce f1 f2) in
  let m1 := radius f1 in
  let m2 := radius f2 in
  m1 * vx f1' + m2 * vx f2' = 0.95 * (m1 * vx f1 + m2 * vx f2)
  /\ m1 * vy f1' + m2 * vy f2' = 0.95 * (m1 * vy f1 + m2 * vy f2)
  /\ vx f2' - vx f1' = -0.95 * (vx f2 - vx f1)
  /\ vy f2' - vy f1' = -0.95 * (vy f2 - vy f1)
  /\ m1 * (vx f1' * vx f1' + vy f1' * vy f1')
     + m2 * (vx f2' * vx f2' + vy f2' * vy f2')
     = 0.9025 * (m1 * (vx f1 * vx f1 + vy f1 * vy f1)
                 + m2 * (vx f2 * vx f2 + vy f2 * vy f2)).
Proof.
  intros Hm f1' f2' m1 m2. unfold f1', f2', m1, m2, bounce.
  cbn [fst snd vx vy].
  replace 0.95 with (95 / 100) by lra.
  replace (-0.95) with (- (95 / 100)) by lra.
  replace 0.9025 with (9025 / 10000) by lra.
  repeat split; field; exact Hm.
Qed.

Lemma bounce_momentum_witness :
  let a := fruitAt 0 100 300 4 0 in
  let b := fruitAt 1 120 300 0 0 in
  15 * vx (fst (bounce a b)) + 20 * vx (snd (bounce a b)) = 57.
Proof.
  intros a b.
  destruct (bounce_momentum a b) as (Hx & _).
  - simpl. lra.
  - simpl in Hx |- *. lra.
Defined.

(** X3.  A merge in terms of the two fruits as the pass found them: the
    new fruit is at the midpoint of their positions before the separation
    (the separation moves them by opposite amounts), and when the radii
    are equal, as for two fruits of one catalog entry, its velocity is
    [0.475 * m * (v1 + v2) / newMass] with the velocities before the
    response. *)
Theorem newFruit_from_pair (f1 f2 : GameFruit) :
  radius f1 = radius f2 -> radius f1 <> 0 ->
  let merged := newFruit (fst (bounce f1 f2)) (snd (bounce f1 f2)) in
  let newMass := radius (fruitTypes_at (typeIndex f1 + 1)) in
  x merged = (x f1 + x f2) / 2
  /\ y merged = (y f1 + y f2) / 2
  /\ vx merged = 0.475 * radius f1 * (vx f1 + vx f2) / newMass
  /\ vy merged = 0.475 * radius f1 * (vy f1 + vy f2) / newMass.
Proof.
  intros Heq Hm merged newMass.
  unfold merged, newMass, newFruit, bounce.
  cbn [fst snd x y vx vy queued typeIndex fruitType radius].
  rewrite <- Heq.
  set (M := radius (fruitTypes_at (typeIndex f1 + 1))).
  split; [field|]. split; [field|].
  replace ((vx f1 * (radius f1 - radius f1) + 2 * radius f1 * vx f2)
           / (radius f1 + radius f1)) with (vx f2) by (field; lra).
  replace ((vx f2 * (radius f1 - radius f1) + 2 * radius f1 * vx f1)
           / (radius f1 + radius f1)) with (vx f1) by (field; lra).
  replace ((vy f1 * (radius f1 - radius f1) + 2 * radius f1 * vy f2)
           / (radius f1 + radius f1)) with (vy f2) by (field; lra).
  replace ((vy f2 * (radius f1 - radius f1) + 2 * radius f1 * vy f1)
           / (radius f1 + radius f1)) with (vy f1) by (field; lra).
  unfold Rdiv. split.
  - transitivity (0.95 * 0.5 * (radius f1 * (vx f1 + vx f2) * / M)); [ring|].
    replace (0.95 * 0.5) with 0.475 by lra. ring.
  - transitivity (0.95 * 0.5 * (radius f1 * (vy f1 + vy f2) * / M)); [ring|].
    replace (0.95 * 0.5) with 0.475 by lra. ring.
Qed.

Lemma newFruit_from_pair_witness :
  let a := fruitAt 0 100 300 4 0 in
  let b := fruitAt 0 110 300 0 2 in
  let merged := newFruit (fst (bounce a b)) (snd (bounce a b)) in
  x merged = 105 /\ vx merged = 1.425 /\ vy merged = 0.7125.
Proof.
  intros a b merged.
  destruct (newFruit_from_pair a b) as (Hx & _ & Hvx & Hvy).
  - reflexivity.
  - simpl. lra.
  - fold merged in Hx, Hvx, Hvy. rewrite Hx, Hvx, Hvy. simpl.
    repeat split; lra.
Defined.

(** ** Whole steps *)

(** What every pass of the loop body keeps, phase B keeps. *)
Section PhaseB.

Variable P : G.t -> Prop.
Hypothesis collide_keeps :
  forall (i j : nat) (g : G.t), (i < j)%nat -> P g -> P (fst (collide i j g)).

Lemma innerLoop_keeps (n i : nat) :
  forall (j : nat) (g : G.t), (i < j)%nat -> P g -> P (innerLoop n i j g).
Proof using collide_keeps.
  induction n as [|n IH]; intros j g Hij Hg; simpl; [exact Hg|].
  case_bool_decide; [|exact Hg].
  pose proof (collide_keeps i j g Hij Hg) as Hc.
  destruct (collide i j g) as [g' [|]]; simpl in Hc; [exact Hc|].
  apply IH; [lia | exact Hc].
Qed.

Lemma outerLoop_keeps (n : nat) :
  forall (i : nat) (g : G.t), P g -> P (outerLoop n i g).
Proof using collide_keeps.
  induction n as [|n IH]; intros i g Hg; simpl; [exact Hg|].
  case_bool_decide; [|exact Hg].
  apply IH, innerLoop_keeps; [lia | exact Hg].
Qed.

End PhaseB.

Lemma update_keeps_prop (canvas : Canvas) (P : G.t -> Prop) (g : G.t) :
  (forall (i j : nat) (h : G.t), (i < j)%nat -> P h -> P (fst (collide i j h))) ->
  P (G.set_fruits (map (moveFruit canvas) (G.fruits g)) g) ->
  P (update canvas g).
Proof.
  intros Hcollide Hmove. unfold update. now apply outerLoop_keeps.
Qed.

(** The two outcomes of a pass of the loop body on [fruits] and [score]. *)
Lemma collide_outcome (i j : nat) (g : G.t) :
  (i < j)%nat ->
  (snd (collide i j g) = false
   /\ G.score (fst (collide i j g)) = G.score g
   /\ exists f1 f2 f1' f2' : GameFruit,
        ((G.fruits g !! i = Some f1 /\ G.fruits g !! j = Some f2
          /\ queued f1' = queued f1 /\ queued f2' = queued f2
          /\ G.fruits (fst (collide i j g))
             = <[j:=f2']> (<[i:=f1']> (G.fruits g)))
         \/ G.fruits (fst (collide i j g)) = G.fruits g))
  \/ (snd (collide i j g) = true
      /\ exists (f1 f2 merged : GameFruit),
           G.fruits g !! i = Some f1 /\ G.fruits g !! j = Some f2
           /\ typeIndex f1 = typeIndex f2 /\ (typeIndex f1 < 10)%nat
           /\ queued merged
              = mkQueuedFruit (fruitTypes_at (typeIndex f1 + 1))
                              (typeIndex f1 + 1)
           /\ G.fruits (fst (collide i j g))
              = delete i (delete j (G.fruits g)) ++ [merged]
           /\ G.score (fst (collide i j g))
              = (G.score g + score (fruitTypes_at (typeIndex f1 + 1)))%Z).
Proof.
  intros Hij. unfold collide.
  destruct (G.fruits g !! i) as [f1|] eqn:E1;
    [|left; repeat split;
      exists (fruitAt 0 0 0 0 0), (fruitAt 0 0 0 0 0),
             (fruitAt 0 0 0 0 0), (fruitAt 0 0 0 0 0); now right].
  destruct (G.fruits g !! j) as [f2|] eqn:E2;
    [|left; repeat split; exists f1, f1, f1, f1; now right].
  destruct (decide (colliding f1 f2));
    [|left; repeat split; exists f1, f2, f1, f2; now right].
  pose proof (bounce_queued f1 f2) as [Hq1 Hq2].
  destruct (bounce f1 f2) as [f1' f2']. simpl in Hq1, Hq2.
  destruct (merging f1' f2') eqn:Em.
  - right. split; [reflexivity|].
    unfold merging in Em. apply andb_true_iff in Em as [Hsame Hlt].
    apply bool_decide_eq_true_1 in Hsame, Hlt.
    rewrite Hq1 in Hlt. rewrite Hq1, Hq2 in Hsame. simpl in Hlt.
    exists f1, f2, (newFruit f1' f2').
    repeat split; try assumption; try lia.
    + simpl. now rewrite Hq1.
    + simpl. now rewrite Hq1.
  - left. split; [reflexivity|]. split; [reflexivity|].
    exists f1, f2, f1', f2'. left. repeat split; assumption.
Qed.

Lemma moveFruit_at_rest (canvas : Canvas) (f : GameFruit) :
  at_rest_inside canvas f -> moveFruit canvas f = f.
Proof.
  intros (Hvx & Hvy & Hx & Hy).
  destruct f as [q fx fy fvx fvy fa]. simpl in *. subst fvx fvy.
  unfold moveFruit. cbn [x y vx vy angle queued].
  repeat match goal with |- context [decide ?A] => destruct (decide A) end;
    try (exfalso; lra); f_equal; lra.
Qed.

(** X4.  A board of fruits at rest, inside the field and pairwise not
    overlapping is a fixed point of [update]: nothing moves, nothing
    merges, the score stays. *)
Theorem update_settled (canvas : Canvas) (g : G.t) :
  Forall (at_rest_inside canvas) (G.fruits g) ->
  no_overlap (G.fruits g) ->
  update canvas g = g.
Proof.
  intros Hrest Hno.
  assert (Hmap : map (moveFruit canvas) (G.fruits g) = G.fruits g).
  { clear Hno. induction Hrest as [|f fs Hf _ IH]; [reflexivity|].
    simpl. now rewrite IH, moveFruit_at_rest. }
  rewrite update_apart; rewrite Hmap; [now destruct g | exact Hno].
Qed.

Lemma update_settled_witness :
  let g := world [fruitAt 0 100 300 0 0; fruitAt 1 200 300 0 0] None in
  update field g = g.
Proof.
  intros g. apply update_settled.
  - repeat constructor; simpl; lra.
  - intros i j f1 f2 Hij H1 H2 Hc.
    destruct i as [|i]; destruct j as [|[|j]]; try lia;
      simpl in H1, H2; try discriminate.
    injection H1 as <-. injection H2 as <-.
    unfold colliding in Hc. rewrite distance_horizontal in Hc; simpl in *; lra.
Defined.

(** *** Weight *)

Lemma weight_app (fs gs : list GameFruit) :
  weight (fs ++ gs) = (weight fs + weight gs)%nat.
Proof. induction fs as [|f fs IH]; simpl; [reflexivity | rewrite IH; lia]. Qed.

Lemma weight_delete (fs : list GameFruit) :
  forall (i : nat) (f : GameFruit),
    fs !! i = Some f ->
    (weight (delete i fs) + 2 ^ typeIndex f = weight fs)%nat.
Proof.
  induction fs as [|f0 fs IH]; intros [|i] f Hi; simpl in *; try discriminate.
  - injection Hi as ->. lia.
  - specialize (IH i f Hi). lia.
Qed.

Lemma weight_insert (fs : list GameFruit) :
  forall (i : nat) (f f' : GameFruit),
    fs !! i = Some f -> typeIndex f' = typeIndex f ->
    weight (<[i:=f']> fs) = weight fs.
Proof.
  induction fs as [|f0 fs IH]; intros [|i] f f' Hi Hty; simpl in *;
    try discriminate.
  - injection Hi as ->. now rewrite Hty.
  - now rewrite (IH i f f' Hi Hty).
Qed.

Lemma weight_moveFruit (canvas : Canvas) (fs : list GameFruit) :
  weight (map (moveFruit canvas) fs) = weight fs.
Proof.
  induction fs as [|f fs IH]; simpl; [reflexivity|].
  now rewrite IH, moveFruit_queued.
Qed.

Lemma weight_pos (fs : list GameFruit) : fs <> [] -> (0 < weight fs)%nat.
Proof.
  destruct fs as [|f fs]; [congruence|]. intros _. simpl.
  pose proof (Nat.pow_nonzero 2 (typeIndex f)). lia.
Qed.

Lemma collide_weight (i j : nat) (g : G.t) :
  (i < j)%nat ->
  weight (G.fruits (fst (collide i j g))) = weight (G.fruits g).
Proof.
  intros Hij.
  destruct (collide_outcome i j g Hij)
    as [(_ & _ & f1 & f2 & f1' & f2' & [(H1 & H2 & Hq1 & Hq2 & ->) | ->])
       | (_ & f1 & f2 & m & H1 & H2 & Hty & _ & Hm & -> & _)];
    [|reflexivity|].
  - assert (H2' : <[i:=f1']> (G.fruits g) !! j = Some f2)
      by (rewrite list_lookup_insert_ne by lia; exact H2).
    rewrite (weight_insert _ j f2 f2' H2') by now rewrite Hq2.
    rewrite (weight_insert _ i f1 f1' H1) by now rewrite Hq1.
    reflexivity.
  - rewrite weight_app. simpl. rewrite Hm. simpl.
    pose proof (weight_delete _ j f2 H2) as Hj.
    assert (Hi' : delete j (G.fruits g) !! i = Some f1)
      by (rewrite list_lookup_delete_lt by exact Hij; exact H1).
    pose proof (weight_delete _ i f1 Hi') as Hi.
    rewrite <- Hty in Hj. rewrite Nat.add_1_r. simpl. lia.
Qed.

(** X5.  [update] conserves the weight of the board, where a fruit of
    type index [k] weighs [2 ^ k]: a merge turns two fruits of weight
    [2 ^ k] into one of weight [2 ^ (k + 1)] and nothing else adds or
    removes a fruit.  In particular a step never empties a board. *)
Theorem update_weight (canvas : Canvas) (g : G.t) :
  weight (G.fruits (update canvas g)) = weight (G.fruits g)
  /\ (G.fruits (update canvas g) = [] <-> G.fruits g = []).
Proof.
  assert (Hw : weight (G.fruits (update canvas g)) = weight (G.fruits g)).
  { apply (update_keeps_prop canvas
             (fun h => weight (G.fruits h) = weight (G.fruits g))).
    - intros i j h Hij Hh. now rewrite collide_weight.
    - simpl. apply weight_moveFruit. }
  split; [exact Hw|]. split; intros Hnil.
  - destruct (G.fruits g) as [|f fs] eqn:Eg; [reflexivity|].
    rewrite Hnil in Hw. simpl in Hw.
    pose proof (Nat.pow_nonzero 2 (typeIndex f)). lia.
  - destruct (G.fruits (update canvas g)) as [|f fs] eqn:Eu; [reflexivity|].
    rewrite Hnil in Hw. simpl in Hw.
    pose proof (Nat.pow_nonzero 2 (typeIndex f)). lia.
Qed.

(** *** Count and score *)

Lemma catalog_score_range (k : nat) :
  (k < 10)%nat -> (2 <= score (fruitTypes_at (k + 1)) <= 11)%Z.
Proof.
  intros Hk. do 10 (destruct k as [|k]; [simpl; lia|]). lia.
Qed.

(** X6.  In one [update] the number of active fruits never grows, the
    score never drops, and the score gained is between 2 and 11 points for
    each fruit that disappeared (each merge removes one fruit net and adds
    the score of the new type). *)
Theorem update_count_score (canvas : Canvas) (g : G.t) :
  let removed :=
    (Z.of_nat (length (G.fruits g))
     - Z.of_nat (length (G.fruits (update canvas g))))%Z in
  (0 <= removed)%Z
  /\ (2 * removed <= G.score (update canvas g) - G.score g <= 11 * removed)%Z
  /\ (G.score g <= G.score (update canvas g))%Z.
Proof.
  intros removed.
  assert (H : (0 <= removed)%Z
              /\ (2 * removed <= G.score (update canvas g) - G.score g
                  <= 11 * removed)%Z).
  { unfold removed.
    apply (update_keeps_prop canvas
             (fun h =>
                let d := (Z.of_nat (length (G.fruits g))
                          - Z.of_nat (length (G.fruits h)))%Z in
                (0 <= d)%Z
                /\ (2 * d <= G.score h - G.score g <= 11 * d)%Z)).
    - intros i j h Hij [Hd Hs]. cbv zeta in *.
      destruct (collide_outcome i j h Hij)
        as [(Hb & Hsc & _) | (Hb & f1 & f2 & m & _ & _ & _ & Hlt & _ & _ & Hsc)].
      + rewrite (collide_length i j h Hb), Hsc. lia.
      + pose proof (collide_length_merge i j h Hij Hb) as Hlen.
        pose proof (catalog_score_range (typeIndex f1) Hlt).
        rewrite Hsc. lia.
    - cbv zeta. simpl. rewrite length_map. lia. }
  destruct H as [H0 Hs]. repeat split; lia.
Qed.

(** *** Occupied area *)

Lemma area_sum_insert (fs : list GameFruit) :
  forall (i : nat) (f f' : GameFruit),
    fs !! i = Some f -> radius f' = radius f ->
    area_sum (<[i:=f']> fs) = area_sum fs.
Proof.
  induction fs as [|f0 fs IH]; intros [|i] f f' Hi Hr; simpl in *;
    try discriminate.
  - injection Hi as ->. now rewrite Hr.
  - now rewrite (IH i f f' Hi Hr).
Qed.

Lemma area_sum_moveFruit (canvas : Canvas) (fs : list GameFruit) :
  area_sum (map (moveFruit canvas) fs) = area_sum fs.
Proof.
  induction fs as [|f fs IH]; simpl; [reflexivity|].
  now rewrite IH, moveFruit_radius.
Qed.

Lemma collide_area (i j : nat) (g : G.t) :
  (i < j)%nat ->
  Forall (fun f : GameFruit => in_catalog f) (G.fruits g) ->
  area_sum (G.fruits (fst (collide i j g))) <= area_sum (G.fruits g).
Proof.
  intros Hij Hcat.
  destruct (collide_outcome i j g Hij)
    as [(_ & _ & f1 & f2 & f1' & f2' & [(H1 & H2 & Hq1 & Hq2 & ->) | ->])
       | (_ & f1 & f2 & m & H1 & H2 & Hty & Hlt & Hm & -> & _)];
    [|lra|].
  - assert (H2' : <[i:=f1']> (G.fruits g) !! j = Some f2)
      by (rewrite list_lookup_insert_ne by lia; exact H2).
    rewrite (area_sum_insert _ j f2 f2' H2') by now rewrite Hq2.
    rewrite (area_sum_insert _ i f1 f1' H1) by now rewrite Hq1.
    lra.
  - pose proof (Forall_lookup_1 _ _ _ _ Hcat H1) as [_ Hc1].
    pose proof (Forall_lookup_1 _ _ _ _ Hcat H2) as [_ Hc2].
    simpl in Hc1, Hc2.
    rewrite area_sum_app.
    rewrite (area_sum_delete _ i f1)
      by (rewrite list_lookup_delete_lt by exact Hij; exact H1).
    rewrite (area_sum_delete _ j f2) by exact H2.
    change (area_sum [m]) with (PI * (radius m * radius m) + 0).
    rewrite Hm. cbn [fruitType].
    pose proof (catalog_radius_step (typeIndex f1) Hlt) as Hstep.
    rewrite Hc1. rewrite Hc2, <- Hty.
    pose proof PI_RGT_0. nra.
Qed.

(** X7.  With fruits that agree with the catalog, on a field of positive
    area, [update] never raises the fill percentage.  So a frame entered
    with the gauge below 90 cannot end the game: the threshold is only
    reached by launching fruits. *)
Theorem update_fill (canvas : Canvas) (g : G.t) :
  Forall (fun f : GameFruit => in_catalog f) (G.fruits g) ->
  0 < width canvas * height canvas ->
  calculateFillPercentage canvas (update canvas g)
  <= calculateFillPercentage canvas g
  /\ (G.gameOver g = false ->
      calculateFillPercentage canvas g < 90 ->
      G.gameOver (gameLoop canvas g) = false).
Proof.
  intros Hcat Harea.
  assert (Hsum : Forall (fun f : GameFruit => in_catalog f)
                        (G.fruits (update canvas g))
                 /\ area_sum (G.fruits (update canvas g))
                    <= area_sum (G.fruits g)).
  { apply (update_keeps_prop canvas
             (fun h => Forall (fun f : GameFruit => in_catalog f) (G.fruits h)
                       /\ area_sum (G.fruits h) <= area_sum (G.fruits g))).
    - intros i j h Hij [Hh Hle]. split; [now apply collide_in_catalog|].
      pose proof (collide_area i j h Hij Hh). lra.
    - simpl. split.
      + apply Forall_fmap. eapply Forall_impl; [exact Hcat|].
        intros f Hf. simpl. now rewrite moveFruit_queued.
      + rewrite area_sum_moveFruit. lra. }
  assert (Hfill : calculateFillPercentage canvas (update canvas g)
                  <= calculateFillPercentage canvas g).
  { rewrite !fill_is_occupancy. apply occupancy_mono; tauto. }
  split; [exact Hfill|].
  intros Hover Hlow. unfold gameLoop, draw, drawFillGauge. rewrite Hover.
  destruct (update_keeps canvas g) as (Hgo & _).
  rewrite bool_decide_eq_false_2.
  - simpl. now rewrite Hgo.
  - change (calculateFillPercentage canvas
              (G.set_updates (S (G.updates g)) (update canvas g)))
      with (calculateFillPercentage canvas (update canvas g)).
    lra.
Qed.

Lemma update_fill_witness :
  let g := world [fruitAt 0 100 300 0 0; fruitAt 0 110 300 0 0] None in
  G.gameOver (gameLoop field g) = false.
Proof.
  intros g.
  destruct (update_fill field g) as [_ Hframe].
  - repeat constructor; simpl; lia.
  - simpl. lra.
  - apply Hframe; [reflexivity|].
    rewrite fill_is_occupancy. unfold occupancy_spec. simpl.
    pose proof PI_4. pose proof PI_RGT_0.
    apply Rle_lt_trans with
      (100 * (PI * (15 * 15) + (PI * (15 * 15) + 0)) / (400 * 600));
      [apply Rmin_r | lra].
Defined.

(** ** Phase A on any fruit *)

(** X8.  Phase A never speeds a fruit up (each velocity component is at
    most 0.98 times what it was, in absolute value) and, on any axis where
    the diameter fits the field, it leaves the circle inside the field,
    whether or not a wall was touched. *)
Theorem moveFruit_inside (canvas : Canvas) (f : GameFruit) :
  Rabs (vx (moveFruit canvas f)) <= 0.98 * Rabs (vx f)
  /\ Rabs (vy (moveFruit canvas f)) <= 0.98 * Rabs (vy f)
  /\ (2 * radius f <= width canvas ->
      radius f <= x (moveFruit canvas f) <= width canvas - radius f)
  /\ (2 * radius f <= height canvas ->
      radius f <= y (moveFruit canvas f) <= height canvas - radius f).
Proof.
  rewrite moveFruit_vx, moveFruit_vy, moveFruit_x, moveFruit_y.
  repeat split;
    repeat match goal with |- context [decide ?A] => destruct (decide A) end;
    try (unfold Rabs;
         repeat match goal with |- context [Rcase_abs ?a] =>
                                 destruct (Rcase_abs a) end; lra);
    try (intros; lra).
Qed.

Lemma moveFruit_inside_witness :
  15 <= x (moveFruit field (fruitAt 0 3 300 (-20) 0)) <= 385.
Proof.
  destruct (moveFruit_inside field (fruitAt 0 3 300 (-20) 0))
    as (_ & _ & Hx & _).
  simpl in Hx. specialize (Hx ltac:(lra)). lra.
Defined.

(** ** Aiming *)

(** X9.  The launched fruit flies towards the mouse: up to a distance of
    300 its velocity is one tenth of the vector from the fruit to the
    mouse, and beyond it is that vector scaled to length 30. *)
Theorem mousedown_direction (g : G.t) (p : GameFruit) :
  G.fruitToLaunch g = Some p ->
  let dx := pos_x (G.mousePos g) - x p in
  let dy := pos_y (G.mousePos g) - y p in
  let d := sqrt (dx * dx + dy * dy) in
  exists b : GameFruit,
    G.fruits (mousedown g) = G.fruits g ++ [b]
    /\ (d <= 300 -> vx b = 0.1 * dx /\ vy b = 0.1 * dy)
    /\ (300 <= d -> vx b = 30 * dx / d /\ vy b = 30 * dy / d).
Proof.
  intros Hp dx dy d. unfold mousedown. rewrite Hp.
  fold dx dy. eexists. split; [reflexivity|]. cbn [vx vy].
  destruct (atan2_polar dx dy) as [Hcos Hsin]. fold d in Hcos, Hsin.
  unfold launchSpeed. fold d. split; intros Hd.
  - rewrite Rmin_left by lra.
    split; [rewrite <- Hcos at 2 | rewrite <- Hsin at 2]; ring.
  - rewrite Rmin_right by lra.
    split; [rewrite <- Hcos at 2 | rewrite <- Hsin at 2]; field; lra.
Qed.

Lemma mousedown_direction_witness :
  let p := fruitAt 2 200 550 0 0 in
  let g := mousemove (mkPosition 230 510) (world [] (Some p)) in
  exists b : GameFruit,
    G.fruits (mousedown g) = [b] /\ vx b = 3 /\ vy b = -4.
Proof.
  intros p g.
  destruct (mousedown_direction g p eq_refl) as (b & Hfs & Hnear & _).
  exists b. split; [exact Hfs|].
  simpl in Hnear.
  replace ((230 - 200) * (230 - 200) + (510 - 550) * (510 - 550))
    with (50 * 50) in Hnear by ring.
  rewrite sqrt_square in Hnear by lra.
  destruct Hnear as [-> ->]; lra.
Defined.

(** X10.  The aiming line drawn by [draw] (canvas of width at least 0)
    starts at the fruit, points to the mouse, and its length is the
    distance to the mouse capped at a quarter of the canvas width. *)
Theorem aimLineEnd_capped (canvas : Canvas) (g : G.t) (p : GameFruit) :
  G.fruitToLaunch g = Some p -> 0 <= width canvas ->
  let dx := pos_x (G.mousePos g) - x p in
  let dy := pos_y (G.mousePos g) - y p in
  let d := sqrt (dx * dx + dy * dy) in
  let len := Rmin d (width canvas * 0.25) in
  exists e : Position,
    aimLineEnd canvas g = Some e
    /\ sqrt ((pos_x e - x p) * (pos_x e - x p)
             + (pos_y e - y p) * (pos_y e - y p)) = len
    /\ (pos_x e - x p) * d = dx * len
    /\ (pos_y e - y p) * d = dy * len.
Proof.
  intros Hp Hw dx dy d len. unfold aimLineEnd. rewrite Hp. fold dx dy d.
  destruct (atan2_polar dx dy) as [Hcos Hsin]. fold d in Hcos, Hsin.
  set (M := width canvas * 0.25) in *.
  assert (HM : 0 <= M) by (unfold M; lra).
  destruct (decide (d > M)) as [Hfar|Hnear]; eexists; (split; [reflexivity|]);
    cbn [pos_x pos_y].
  - unfold len. rewrite Rmin_right by lra.
    set (c := cos (atan2 dy dx)) in *. set (s := sin (atan2 dy dx)) in *.
    assert (Hunit : c * c + s * s = 1).
    { pose proof (sin2_cos2 (atan2 dy dx)) as H1. unfold Rsqr in H1.
      unfold c, s. lra. }
    split; [|split].
    + replace ((x p + c * M - x p) * (x p + c * M - x p)
               + (y p + s * M - y p) * (y p + s * M - y p))
        with ((c * c + s * s) * (M * M)) by ring.
      rewrite Hunit, Rmult_1_l. now apply sqrt_square.
    + transitivity (c * d * M); [ring | now rewrite Hcos].
    + transitivity (s * d * M); [ring | now rewrite Hsin].
  - unfold len. rewrite Rmin_left by lra.
    fold dx dy. split; [reflexivity|]. split; ring.
Qed.

Lemma aimLineEnd_capped_witness :
  let p := fruitAt 2 200 550 0 0 in
  let g := mousemove (mkPosition 200 50) (world [] (Some p)) in
  exists e : Position,
    aimLineEnd field g = Some e
    /\ sqrt ((pos_x e - 200) * (pos_x e - 200)
             + (pos_y e - 550) * (pos_y e - 550)) = 100.
Proof.
  intros p g.
  destruct (aimLineEnd_capped field g p eq_refl) as (e & He & Hlen & _).
  - simpl. lra.
  - exists e. split; [exact He|]. simpl in Hlen. rewrite Hlen.
    replace ((200 - 200) * (200 - 200) + (50 - 550) * (50 - 550))
      with (500 * 500) by ring.
    rewrite sqrt_square by lra. rewrite Rmin_right by lra. lra.
Defined.

(** ** Random fruit *)

(** X11.  [generateRandomFruit] cuts the draws of [Math.random] into five
    intervals of equal length, one for each of the first five catalog
    entries: index [i] comes out exactly for [i / 5 <= r < (i + 1) / 5], and
    the fields of the fruit are those of entry [i]. *)
Theorem generateRandomFruit_interval (r : R) (i : nat) :
  0 <= r < 1 ->
  (typeIndex (generateRandomFruit r) = i
   <-> INR i / 5 <= r < (INR i + 1) / 5)
  /\ (typeIndex (generateRandomFruit r) <= 4)%nat
  /\ fruitType (generateRandomFruit r)
     = fruitTypes_at (typeIndex (generateRandomFruit r)).
Proof.
  intros Hr.
  assert (Hfloor : (0 <= Zfloor (r * 5))%Z) by (apply Zfloor_lub; simpl; lra).
  pose proof (Zfloor_bound (r * 5)) as Hb.
  split; [|split; [apply (generateRandomFruit_spawnable r Hr) | reflexivity]].
  cbn [typeIndex generateRandomFruit]. unfold floor.
  rewrite INR_IZR_INZ. split.
  - intros <-. rewrite Z2Nat.id by exact Hfloor. lra.
  - intros Hi. rewrite (Zfloor_eq (Z.of_nat i) (r * 5)) by lra.
    apply Nat2Z.id.
Qed.

Lemma generateRandomFruit_interval_witness :
  typeIndex (generateRandomFruit 0.5) = 2%nat.
Proof.
  destruct (generateRandomFruit_interval 0.5 2) as [Hiff _]; [lra|].
  apply Hiff. simpl. lra.
Defined.

(** ** Restart and the life of the loops *)

Lemma update_empty (canvas : Canvas) (g : G.t) :
  G.fruits g = [] -> update canvas g = g.
Proof.
  intros Hg. unfold update. rewrite Hg. simpl. rewrite <- Hg. now destruct g.
Qed.

Lemma fill_empty (canvas : Canvas) (g : G.t) :
  G.fruits g = [] -> calculateFillPercentage canvas g = 0.
Proof.
  intros Hg. unfold calculateFillPercentage. rewrite Hg. simpl.
  replace (0 / (width canvas * height canvas) * 100) with 0
    by (unfold Rdiv; ring).
  apply Rmin_left. lra.
Qed.

Lemma gameLoop_empty (canvas : Canvas) (h : G.t) :
  G.fruits h = [] -> G.gameOver h = false ->
  gameLoop canvas h
  = G.set_frames (S (G.frames h)) (G.set_updates (S (G.updates h)) h).
Proof.
  intros Hfs Hover. unfold gameLoop, draw, drawFillGauge. rewrite Hover.
  rewrite update_empty by exact Hfs.
  rewrite bool_decide_eq_false_2
    by (rewrite fill_empty by exact Hfs; lra).
  reflexivity.
Qed.

(** The state [init] returns, whatever the fuel and the state before. *)
Lemma init_outcome (canvas : Canvas) (fuel : nat) (r1 r2 : R) (g : G.t) :
  init canvas fuel r1 r2 g
  = Some (G.mk 0 false []
            (Some (mkGameFruit (generateRandomFruit r1)
                     (width canvas / 2) (height canvas - 50) 0 0 0))
            (generateRandomFruit r2) (G.mousePos g) (G.timers g)
            (S (G.frames g)) (S (G.updates g)) (G.gameOvers g)).
Proof.
  unfold init, prepareNextFruit. cbn [isOverlapping G.fruits G.set_fruits
    G.set_fruitInQueue G.set_gameOver G.set_score existsb mbind option_bind].
  now rewrite gameLoop_empty by reflexivity.
Qed.

(** X12.  [init] always completes (the placement search is not even
    entered: the board is empty) and leaves a fresh session: score 0, no
    active fruit, game not over, the first drawn fruit waiting at rest at
    [(width / 2, height - 50)] and the second one queued.  It runs one
    frame at once and queues the next one on top of those already queued,
    and it leaves the armed timers alone: a timer armed before a restart
    still fires after it. *)
Theorem init_fresh (canvas : Canvas) (fuel : nat) (r1 r2 : R) (g : G.t) :
  exists g' : G.t,
    init canvas fuel r1 r2 g = Some g'
    /\ G.score g' = 0%Z /\ G.fruits g' = [] /\ G.gameOver g' = false
    /\ G.fruitToLaunch g'
       = Some (mkGameFruit (generateRandomFruit r1)
                 (width canvas / 2) (height canvas - 50) 0 0 0)
    /\ G.fruitInQueue g' = generateRandomFruit r2
    /\ G.mousePos g' = G.mousePos g
    /\ G.timers g' = G.timers g
    /\ G.frames g' = S (G.frames g)
    /\ G.updates g' = S (G.updates g)
    /\ G.gameOvers g' = G.gameOvers g.
Proof.
  eexists. split; [apply init_outcome|]. repeat split.
Qed.

Lemma gameLoop_keeps (canvas : Canvas) (g : G.t) :
  G.fruitToLaunch (gameLoop canvas g) = G.fruitToLaunch g
  /\ G.fruitInQueue (gameLoop canvas g) = G.fruitInQueue g
  /\ G.timers (gameLoop canvas g) = G.timers g
  /\ (G.gameOver (gameLoop canvas g) = false ->
      G.gameOver g = false
      /\ G.frames (gameLoop canvas g) = S (G.frames g)).
Proof.
  unfold gameLoop. destruct (G.gameOver g) eqn:Hover.
  - repeat split; congruence.
  - pose proof (update_footprint canvas g) as Hfoot.
    unfold only_fruits_score in Hfoot.
    set (u := update canvas g) in *.
    assert (Hp : G.fruitToLaunch u = G.fruitToLaunch g)
      by (rewrite Hfoot; reflexivity).
    assert (Hq : G.fruitInQueue u = G.fruitInQueue g)
      by (rewrite Hfoot; reflexivity).
    assert (Ht : G.timers u = G.timers g) by (rewrite Hfoot; reflexivity).
    assert (Hfr : G.frames u = G.frames g) by (rewrite Hfoot; reflexivity).
    clearbody u. unfold draw.
    destruct (drawFillGauge_cases canvas (G.set_updates (S (G.updates g)) u))
      as [-> | [_ ->]]; cbn; rewrite Hp, Hq, Ht, Hfr; repeat split;
      discriminate.
Qed.

(** X13.  In every state the script reaches, the player is never left
    without both a fruit to launch and a timer that will bring one; and as
    long as the game is not over, a frame is queued: the animation loop
    does not die. *)
Theorem reachable_alive (canvas : Canvas) (g : G.t) :
  reachable canvas g ->
  (G.fruitToLaunch g = None -> (0 < G.timers g)%nat)
  /\ (G.gameOver g = false -> (0 < G.frames g)%nat).
Proof.
  induction 1 as [fuel r1 r2 g Hr1 Hr2 Hinit | g e g' _ [IHt IHf] Hstep].
  - rewrite init_outcome in Hinit. injection Hinit as <-.
    split; [discriminate | simpl; lia].
  - destruct Hstep as [g p | g | g r fuel g' Ht Hr Hprep | g Hfr
                      | g r1 r2 fuel g' Hr1 Hr2 Hinit].
    + split; assumption.
    + unfold mousedown. destruct (G.fruitToLaunch g) eqn:Ep.
      * split; [intros _; simpl; lia | exact IHf].
      * split; [intros _; now apply IHt | exact IHf].
    + apply prepareNextFruit_Some in Hprep as [x1 ->].
      split; [discriminate | exact IHf].
    + destruct (gameLoop_keeps canvas
                  (G.set_frames (Init.Nat.pred (G.frames g)) g))
        as (Hp & _ & Ht & Hlive).
      split.
      * rewrite Hp, Ht. exact IHt.
      * intros Hover. destruct (Hlive Hover) as [_ ->]. lia.
    + rewrite init_outcome in Hinit. injection Hinit as <-.
      split; [discriminate | simpl; lia].
Qed.

Lemma reachable_alive_witness :
  exists g : G.t,
    reachable field g
    /\ G.fruitToLaunch g = None /\ (0 < G.timers g)%nat
    /\ (0 < G.frames g)%nat.
Proof.
  pose proof (init_outcome field 0 0 0 boot) as Hinit.
  set (g0 := G.mk _ _ _ _ _ _ _ _ _ _) in Hinit.
  assert (Hp : exists p, G.fruitToLaunch g0 = Some p) by (eexists; reflexivity).
  destruct Hp as [p Hp].
  assert (Hover : G.gameOver g0 = false) by reflexivity.
  assert (Hr : reachable field (mousedown g0)).
  { eapply reachable_step; [|apply step_mousedown].
    apply (reachable_init field 0 0 0); [lra | lra | exact Hinit]. }
  assert (Hnone : G.fruitToLaunch (mousedown g0) = None)
    by (unfold mousedown; rewrite Hp; reflexivity).
  assert (Hlive : G.gameOver (mousedown g0) = false)
    by (unfold mousedown; rewrite Hp; exact Hover).
  exists (mousedown g0).
  destruct (reachable_alive field _ Hr) as [Ht Hf].
  split; [exact Hr|]. split; [exact Hnone|].
  split; [exact (Ht Hnone) | exact (Hf Hlive)].
Defined.

(** ** Sizes and the spawn line *)

Lemma catalog_radius_range (k : nat) :
  (k <= 10)%nat ->
  15 <= radius (fruitTypes_at k) <= 120
  /\ ((k <= 4)%nat -> radius (fruitTypes_at k) <= 45).
Proof.
  intros Hk.
  do 11 (destruct k as [|k]; [simpl; split; [lra | intros; lra || lia]|]).
  lia.
Qed.

Lemma prepareNextFruit_more_fuel canvas fuel r g g' :
  prepareNextFruit canvas fuel r g = Some g' ->
  forall fuel', (fuel <= fuel')%nat ->
    prepareNextFruit canvas fuel' r g = Some g'.
Proof.
  unfold prepareNextFruit. intros Hrun fuel' Hle.
  destruct (isOverlapping _ _ _ _); [|exact Hrun].
  destruct (searchLoop canvas fuel _ _ _ _ 5) as [x1|] eqn:Esearch;
    [|discriminate].
  now rewrite (searchLoop_more_fuel _ _ _ _ _ fuel 5 x1 Esearch fuel' Hle).
Qed.

Lemma first_free_inside canvas g y0 radius0 c xx :
  first_free canvas g y0 radius0 c xx ->
  xx = c \/ inside canvas radius0 xx.
Proof.
  intros [(k & _ & -> & [Hin _] & _)
         | [(k & _ & -> & [Hin _] & _) | [-> _]]]; auto.
Qed.

(** Where the fruit to launch waits. *)
Lemma reachable_pending (canvas : Canvas) (g : G.t) :
  reachable canvas g ->
  forall p : GameFruit,
    G.fruitToLaunch g = Some p ->
    y p = height canvas - 50 /\ vx p = 0 /\ vy p = 0 /\ angle p = 0
    /\ (x p = width canvas / 2 \/ inside canvas (radius p) (x p)).
Proof.
  induction 1 as [fuel r1 r2 g Hr1 Hr2 Hinit | g e g' Hreach IH Hstep].
  - rewrite init_outcome in Hinit. injection Hinit as <-.
    intros p Ep. simpl in Ep. injection Ep as <-. simpl.
    repeat split. now left.
  - destruct Hstep as [g p0 | g | g r fuel g' Ht Hr Hprep | g Hfr
                      | g r1 r2 fuel g' Hr1 Hr2 Hinit].
    + exact IH.
    + unfold mousedown. destruct (G.fruitToLaunch g) eqn:Ep;
        [discriminate | rewrite Ep; discriminate].
    + destruct (reachable_catalog canvas g Hreach) as (_ & _ & [Hk Hq]).
      set (g0 := G.set_timers (Init.Nat.pred (G.timers g)) g) in *.
      assert (Hrad : 0 <= radius (G.fruitInQueue g0)).
      { change (G.fruitInQueue g0) with (G.fruitInQueue g). rewrite Hq.
        destruct (catalog_radius_range (typeIndex (G.fruitInQueue g)))
          as [[Hlo _] _]; [lia | lra]. }
      destruct (prepareNextFruit_places canvas g0 r Hrad)
        as (n & g'' & x1 & Hn & Hg'' & Hcentre & Hsearch).
      assert (g'' = g') as <-.
      { pose proof (Hn (Nat.max fuel n) (Nat.le_max_r _ _)) as H1.
        pose proof (prepareNextFruit_more_fuel canvas fuel r g0 g' Hprep
                      (Nat.max fuel n) (Nat.le_max_l _ _)) as H2.
        congruence. }
      intros p Ep. rewrite Hg'' in Ep. simpl in Ep. injection Ep as <-.
      cbn [x y vx vy angle queued]. repeat split.
      destruct (isOverlapping g0 (width canvas / 2) (height canvas - 50)
                  (radius (G.fruitInQueue g0))) eqn:Eov.
      * apply (first_free_inside canvas g0 (height canvas - 50)).
        now apply Hsearch.
      * left. now apply Hcentre.
    + destruct (gameLoop_keeps canvas
                  (G.set_frames (Init.Nat.pred (G.frames g)) g)) as (Hp & _).
      rewrite Hp. exact IH.
    + rewrite init_outcome in Hinit. injection Hinit as <-.
      intros p Ep. simpl in Ep. injection Ep as <-. simpl.
      repeat split. now left.
Qed.

(** X14.  In every state the script reaches, every active fruit has the
    radius of a catalog entry, between 15 and 120 (so the sums of radii
    that the collision response divides by are at least 30), and the fruit
    waiting to be launched has a radius between 15 and 45, is at rest on
    the spawn line [y = height - 50], and lies strictly inside the
    horizontal bounds when the canvas is more than 90 wide. *)
Theorem reachable_geometry (canvas : Canvas) (g : G.t) :
  reachable canvas g ->
  Forall (fun f : GameFruit => 15 <= radius f <= 120) (G.fruits g)
  /\ (forall f1 f2 : GameFruit,
        f1 ∈ G.fruits g -> f2 ∈ G.fruits g -> 30 <= radius f1 + radius f2)
  /\ (forall p : GameFruit,
        G.fruitToLaunch g = Some p ->
        15 <= radius p <= 45
        /\ y p = height canvas - 50 /\ vx p = 0 /\ vy p = 0
        /\ (90 < width canvas -> inside canvas (radius p) (x p))).
Proof.
  intros Hreach.
  destruct (reachable_catalog canvas g Hreach) as (Hfs & Hp & _).
  assert (Hall : Forall (fun f : GameFruit => 15 <= radius f <= 120)
                        (G.fruits g)).
  { eapply Forall_impl; [exact Hfs|].
    intros f [Hk Hq]. simpl in *. rewrite Hq.
    now apply catalog_radius_range. }
  split; [exact Hall|]. split.
  - intros f1 f2 H1 H2. rewrite Forall_forall in Hall.
    pose proof (Hall f1 H1). pose proof (Hall f2 H2). lra.
  - intros p Ep. destruct (Hp p Ep) as [Hk Hq].
    destruct (reachable_pending canvas g Hreach p Ep)
      as (Hy & Hvx & Hvy & _ & Hx).
    destruct (catalog_radius_range (typeIndex p)) as [[Hlo Hhi] Hsmall];
      [lia|].
    specialize (Hsmall Hk). rewrite <- Hq in Hlo, Hsmall.
    repeat split; try assumption; try lra.
    + destruct Hx as [-> | [Hin _]]; lra.
    + destruct Hx as [-> | [_ Hin]]; lra.
Qed.

Lemma reachable_geometry_witness :
  exists (g : G.t) (p : GameFruit),
    reachable field g /\ G.fruitToLaunch g = Some p
    /\ inside field (radius p) (x p).
Proof.
  pose proof (init_outcome field 0 0 0 boot) as Hinit.
  set (g0 := G.mk _ _ _ _ _ _ _ _ _ _) in Hinit.
  assert (Hp : exists p, G.fruitToLaunch g0 = Some p) by (eexists; reflexivity).
  destruct Hp as [p Hp].
  assert (Hr : reachable field g0)
    by (apply (reachable_init field 0 0 0); [lra | lra | exact Hinit]).
  destruct (reachable_geometry field g0 Hr) as (_ & _ & Hpend).
  exists g0, p. split; [exact Hr|]. split; [exact Hp|].
  destruct (Hpend _ Hp) as (_ & _ & _ & _ & Hin).
  apply Hin. simpl. lra.
Defined.

(** ** The gauge *)

Lemma round_range (a b : Z) (r : R) :
  IZR a <= r <= IZR b -> (a <= round r <= b)%Z.
Proof.
  intros [Ha Hb]. unfold round.
  pose proof (Zfloor_bound (r + 0.5)) as [Hlo Hhi].
  split.
  - apply Zfloor_lub. lra.
  - assert (Hlt : IZR (Zfloor (r + 0.5)) < IZR (b + 1))
      by (rewrite plus_IZR; simpl; lra).
    apply lt_IZR in Hlt. lia.
Qed.

Lemma round_IZR (z : Z) : round (IZR z) = z.
Proof. unfold round. apply Zfloor_eq. lra. Qed.

(** X15.  On a field of positive area the gauge is always drawn with a
    valid colour and level: red and green are integers between 0 and 255
    and blue is 0; up to 50 percent green is at least 128, above 50
    percent red is 255; the filled height is between 0 and the height of
    the gauge, and the number shown is between 0 and 100. *)
Theorem gauge_drawing (canvas : Canvas) (g : G.t) (gaugeHeight : R) :
  0 < width canvas * height canvas -> 0 <= gaugeHeight ->
  let fillPercentage := calculateFillPercentage canvas g in
  (0 <= (gaugeColor fillPercentage).1.1 <= 255)%Z
  /\ (0 <= (gaugeColor fillPercentage).1.2 <= 255)%Z
  /\ (gaugeColor fillPercentage).2 = 0%Z
  /\ (fillPercentage <= 50 -> (128 <= (gaugeColor fillPercentage).1.2)%Z)
  /\ (50 < fillPercentage -> (gaugeColor fillPercentage).1.1 = 255%Z)
  /\ 0 <= gaugeFillHeight gaugeHeight fillPercentage <= gaugeHeight
  /\ (0 <= gaugeText fillPercentage <= 100)%Z.
Proof.
  intros Harea Hh fillPercentage.
  assert (Hfp : 0 <= fillPercentage <= 100).
  { unfold fillPercentage. rewrite fill_is_occupancy.
    now apply occupancy_range. }
  clearbody fillPercentage.
  unfold gaugeColor, gaugeFillHeight, gaugeText.
  destruct (decide (fillPercentage <= 50)) as [Hlow|Hhigh]; cbn [fst snd].
  - assert (H1 : (0 <= round (255 * (fillPercentage / 50)) <= 255)%Z)
      by (apply round_range; simpl; lra).
    assert (H2 : (128 <= round (128 + 127 * (fillPercentage / 50)) <= 255)%Z)
      by (apply round_range; simpl; lra).
    assert (H3 : (0 <= round fillPercentage <= 100)%Z)
      by (apply round_range; simpl; lra).
    repeat split; try lia; try lra; try nra.
  - assert (H2 : (0 <= round (255 * (1 - (fillPercentage - 50) / 50))
                  <= 255)%Z)
      by (apply round_range; simpl; lra).
    assert (H3 : (0 <= round fillPercentage <= 100)%Z)
      by (apply round_range; simpl; lra).
    repeat split; try lia; try lra; try nra.
Qed.

Lemma gauge_drawing_witness :
  let g := world [fruitAt 0 100 300 0 0] None in
  (128 <= (gaugeColor (calculateFillPercentage field g)).1.2 <= 255)%Z.
Proof.
  intros g.
  destruct (gauge_drawing field g 300) as (_ & Hg & _ & Hlow & _).
  - simpl. lra.
  - lra.
  - split; [|lia]. apply Hlow.
    rewrite fill_is_occupancy. unfold occupancy_spec. simpl.
    pose proof PI_4. pose proof PI_RGT_0.
    apply Rle_trans with (100 * (PI * (15 * 15) + 0) / (400 * 600));
      [apply Rmin_r | lra].
Defined.

(** The colours at the ends and in the middle of the scale: dark green
    when empty, yellow at 50 percent from both formulas, red when full. *)
Lemma gaugeColor_scale :
  gaugeColor 0 = (0, 128, 0)%Z
  /\ gaugeColor 50 = (255, 255, 0)%Z
  /\ gaugeColor 100 = (255, 0, 0)%Z
  /\ round (255 * (1 - (50 - 50) / 50)) = 255%Z.
Proof.
  unfold gaugeColor.
  destruct (decide (0 <= 50)) as [_|H]; [|exfalso; lra].
  destruct (decide (50 <= 50)) as [_|H]; [|exfalso; lra].
  destruct (decide (100 <= 50)) as [H|_]; [exfalso; lra|].
  replace (255 * (0 / 50)) with (IZR 0) by (simpl; lra).
  replace (128 + 127 * (0 / 50)) with (IZR 128) by (simpl; lra).
  replace (255 * (50 / 50)) with (IZR 255) by (simpl; lra).
  replace (128 + 127 * (50 / 50)) with (IZR 255) by (simpl; lra).
  replace (255 * (1 - (100 - 50) / 50)) with (IZR 0) by (simpl; lra).
  replace (255 * (1 - (50 - 50) / 50)) with (IZR 255) by (simpl; lra).
  rewrite !round_IZR. auto.
Qed.

(** ** The score over a session *)

Lemma update_score_le (canvas : Canvas) (g : G.t) :
  (G.score g <= G.score (update canvas g))%Z.
Proof.
  apply (update_keeps_prop canvas (fun h => (G.score g <= G.score h)%Z)).
  - intros i j h Hij Hh.
    destruct (collide_outcome i j h Hij)
      as [(_ & -> & _) | (_ & f1 & f2 & m & _ & _ & _ & Hlt & _ & _ & ->)];
      [exact Hh|].
    pose proof (catalog_score_range (typeIndex f1) Hlt). lia.
  - simpl. lia.
Qed.

Lemma gameLoop_score_le (canvas : Canvas) (g : G.t) :
  (G.score g <= G.score (gameLoop canvas g))%Z.
Proof.
  unfold gameLoop. destruct (G.gameOver g); [lia|]. unfold draw.
  destruct (drawFillGauge_cases canvas
              (G.set_updates (S (G.updates g)) (update canvas g)))
    as [-> | [_ ->]]; cbn [G.score G.set_frames G.set_updates G.set_gameOvers
                            G.set_gameOver];
    apply update_score_le.
Qed.

Lemma step_score (canvas : Canvas) (g : G.t) (e : Event) (g' : G.t) :
  step canvas g e g' -> is_restart e = false ->
  (G.score g <= G.score g')%Z
  /\ (e <> AnimationFrame -> G.score g' = G.score g).
Proof.
  intros Hstep Hnr.
  destruct Hstep as [g p | g | g r fuel g' Ht Hr Hprep | g Hfr
                    | g r1 r2 fuel g' Hr1 Hr2 Hinit].
  - split; [simpl; lia | reflexivity].
  - unfold mousedown. destruct (G.fruitToLaunch g);
      (split; [simpl; lia | reflexivity]).
  - apply prepareNextFruit_Some in Hprep as [x1 ->].
    split; [simpl; lia | reflexivity].
  - split; [|congruence].
    apply (gameLoop_score_le canvas
             (G.set_frames (Init.Nat.pred (G.frames g)) g)).
  - discriminate.
Qed.

(** X16.  Between two restarts the score never goes down, and it only
    changes in animation frames: mouse events and spawn timers leave it
    alone. *)
Theorem run_score (canvas : Canvas) (g : G.t) (es : list Event) (g' : G.t) :
  run canvas g es g' ->
  Forall (fun e => is_restart e = false) es ->
  (G.score g <= G.score g')%Z
  /\ (Forall (fun e => e <> AnimationFrame) es -> G.score g' = G.score g).
Proof.
  induction 1 as [g | g e g1 es g' Hstep Hrun IH]; intros Hnr.
  - split; [lia | reflexivity].
  - inversion Hnr as [|? ? He Hes]; subst.
    destruct (step_score canvas g e g1 Hstep He) as [Hle Hsame].
    destruct (IH Hes) as [IHle IHsame].
    split; [lia|].
    intros Hquiet. inversion Hquiet as [|? ? Hq Hqs]; subst.
    rewrite (IHsame Hqs). now apply Hsame.
Qed.

Lemma run_score_witness :
  let g := world [fruitAt 0 100 300 0 0; fruitAt 0 110 300 0 0] None in
  exists g' : G.t,
    run field g [MouseMove (mkPosition 5 5); AnimationFrame] g'
    /\ (0 <= G.score g')%Z.
Proof.
  intros g.
  assert (Hrun : run field g [MouseMove (mkPosition 5 5); AnimationFrame]
                   (gameLoop field
                      (G.set_frames (Init.Nat.pred 1)
                         (mousemove (mkPosition 5 5) g)))).
  { eapply run_cons; [apply step_mousemove|].
    eapply run_cons; [|apply run_nil].
    apply (step_frame field (mousemove (mkPosition 5 5) g)). simpl. lia. }
  eexists. split; [exact Hrun|].
  destruct (run_score field _ _ _ Hrun) as [Hle _].
  - repeat constructor.
  - exact Hle.
Defined.

(** ** Merges over a whole step *)






